(** * Griswold light-show animator: timeline/state core

    A shallow embedding of the store actions, the interpolation engine, the
    cue sampler, the polygon hit test and the project-file migration of the
    Griswold animator, with the properties its design document states.

    JavaScript numbers are modelled by exact rationals [Q]: [===] on numbers
    is [Qeq_bool], [<=] is [Qle_bool], and arithmetic is exact.  NaN, the
    infinities and IEEE rounding are outside the model. *)

From Stdlib Require Import QArith Qround Lqa.
From Stdlib Require Import ZArith Lia Bool Arith.
From Stdlib Require Import List Sorted Permutation.
From Stdlib Require Import String Ascii.
Import ListNotations.

Local Open Scope Q_scope.

(* ------------------------------------------------------------------------ *)
(** ** Numbers *)

Abbreviation number := Q (only parsing).

(** [x < y] on numbers, as a boolean. *)
Definition Qlt_bool (x y : Q) : bool := negb (Qle_bool y x).

(** [x || y] on numbers: [x] unless it is zero. *)
Definition num_or (x y : number) : number := if Qeq_bool x 0 then y else x.

(** [Math.round]: nearest integer, ties towards plus infinity. *)
Definition Math_round (x : number) : number := inject_Z (Qfloor (x + (1 # 2))).

(** Division, reported as [None] when the divisor is zero: JavaScript then
    yields an infinity or NaN, which the rational model does not contain. *)
Definition checked_div (a b : number) : option number :=
  if Qeq_bool b 0 then None else Some (a / b).

(** [Math.max(a, b)] and [Math.min(a, b)] *)
Definition Math_max (a b : number) : number := if Qle_bool a b then b else a.

Definition Math_min (a b : number) : number := if Qle_bool a b then a else b.

(** [Math.abs] *)
Definition Math_abs (a : number) : number := if Qle_bool 0 a then a else - a.

(** ** Arrays *)

(** [Array.prototype.sort(compareFn)].  The sort is stable, and for a
    consistent comparator every stable sort returns the same array; it is
    modelled by stable insertion.  [compareFn a b > 0] means that [a] goes
    after [b]. *)
Section ArraySort.
Context {A : Type} (compareFn : A -> A -> number).

Fixpoint sort_insert (x : A) (l : list A) : list A :=
  match l with
  | [] => [x]
  | y :: l' =>
      if Qlt_bool 0 (compareFn x y) then y :: sort_insert x l'
      else x :: y :: l'
  end.

Definition array_sort (l : list A) : list A := fold_right sort_insert [] l.

(** The order a comparator stands for: [a] may come before [b]. *)
Definition cmp_le (a b : A) : Prop := compareFn a b <= 0.
End ArraySort.

(* ------------------------------------------------------------------------ *)
(** ** Data model (types.ts) *)

Inductive Polygon : Type :=
| Rectangle (x y width height : number)
| Arbitrary (points : list (number * number)).

Record Shape : Type := mkShape {
  geometry : Polygon;
  offColor : string;
  onColor : string
}.

Record KeyFrame : Type := mkKeyFrame {
  time : number;
  value : number
}.

Inductive InterpolationType : Type := step | linear.

Record Actor : Type := mkActor {
  id : string;
  label : string;
  shapes : list Shape;
  keyframes : list KeyFrame;
  interpolation : InterpolationType
}.

Record CanvasBackground : Type := mkCanvasBackground {
  bg_id : string;
  dataUrl : string;
  bg_x : number;
  bg_y : number;
  bg_width : number;
  bg_height : number;
  zIndex : number
}.

Record Project : Type := mkProject {
  name : string;
  songFilename : string;
  canvasWidth : number;
  canvasHeight : number
}.

Record PlaybackState : Type := mkPlaybackState {
  currentTime : number;
  isPlaying : bool;
  duration : number
}.

Inductive Tool : Type := tool_select | tool_rectangle | tool_polygon.

Record UIState : Type := mkUIState {
  selectedActorId : option string;
  selectedBackgroundId : option string;
  zoom : number;
  scrollX : number;
  scrollY : number;
  tool : Tool
}.

Record ExportedCue : Type := mkCue {
  cue_t : number;
  cue_id : string;
  cue_state : number
}.

(** The keyframe invariant of the data model: ascending by time, no two
    keyframes at the same time. *)
Definition kf_before (a b : KeyFrame) : Prop := time a < time b.

Definition sorted_unique (kfs : list KeyFrame) : Prop :=
  StronglySorted kf_before kfs.

Definition unit_value (k : KeyFrame) : Prop := 0 <= value k /\ value k <= 1.

(* ------------------------------------------------------------------------ *)
(** ** Interpolation engine (store: getActorValueAtTime) *)

Definition is_null {A} (o : option A) : bool :=
  match o with Some _ => false | None => true end.

(** The [for (const kf of keyframes)] loop, threading [before] and [after]. *)
Fixpoint surrounding (kfs : list KeyFrame) (t : number)
         (before after : option KeyFrame) : option KeyFrame * option KeyFrame :=
  match kfs with
  | [] => (before, after)
  | kf :: rest =>
      let before' := if Qle_bool (time kf) t then Some kf else before in
      let after' :=
        if Qle_bool t (time kf) && is_null after then Some kf else after in
      surrounding rest t before' after'
  end.

(** The interpolation parameter of the linear case. *)
Definition lerp_param (before after : KeyFrame) (t : number) : number :=
  (t - time before) / (time after - time before).

Definition getActorValueAtTime (actor : Actor) (t : number) : number :=
  match keyframes actor with
  | [] => 0
  | _ =>
      match surrounding (keyframes actor) t None None with
      | (None, Some after) => value after
      | (None, None) => 0
      | (Some before, None) => value before
      | (Some before, Some after) =>
          if Qeq_bool (time before) (time after) then value before
          else
            match interpolation actor with
            | linear =>
                let p := lerp_param before after t in
                value before + p * (value after - value before)
            | step => value before
            end
      end
  end.

(** The last element of [l], or [d] when [l] is empty. *)
Fixpoint last_opt {A} (l : list A) (d : option A) : option A :=
  match l with
  | [] => d
  | x :: l' => last_opt l' (Some x)
  end.

(** *** Reference definition, following the wording of the design document *)

Definition keep_later (k : KeyFrame) (acc : option KeyFrame) : option KeyFrame :=
  match acc with
  | None => Some k
  | Some m => if Qlt_bool (time m) (time k) then Some k else Some m
  end.

Definition keep_earlier (k : KeyFrame) (acc : option KeyFrame) : option KeyFrame :=
  match acc with
  | None => Some k
  | Some m => if Qlt_bool (time k) (time m) then Some k else Some m
  end.

(** The keyframe with the greatest [time <= t], or [None]. *)
Definition before_ref (kfs : list KeyFrame) (t : number) : option KeyFrame :=
  fold_right keep_later None (filter (fun k => Qle_bool (time k) t) kfs).

(** The keyframe with the smallest [time >= t], or [None]. *)
Definition after_ref (kfs : list KeyFrame) (t : number) : option KeyFrame :=
  fold_right keep_earlier None (filter (fun k => Qle_bool t (time k)) kfs).

Definition valueAt_ref (actor : Actor) (t : number) : number :=
  match keyframes actor with
  | [] => 0
  | _ =>
      match before_ref (keyframes actor) t, after_ref (keyframes actor) t with
      | None, Some after => value after
      | Some before, None => value before
      | Some before, Some after =>
          if Qeq_bool (time before) (time after) then value before
          else
            match interpolation actor with
            | step => value before
            | linear =>
                value before
                + ((t - time before) / (time after - time before))
                  * (value after - value before)
            end
      | None, None => 0
      end
  end.

(* ------------------------------------------------------------------------ *)
(** ** Project state store (store: useProjectStore) *)

Module Store.

Record ProjectState : Type := mkState {
  project : Project;
  actors : list Actor;
  backgrounds : list CanvasBackground;
  playback : PlaybackState;
  ui : UIState;
  (* runtime-only browser objects, represented by opaque handles *)
  audioBuffer : option nat;
  audioFile : option nat
}.

(** [set(partial)] merges the fields an action returns into the state. *)
Definition set_actors (st : ProjectState) (acts : list Actor) : ProjectState :=
  mkState (project st) acts (backgrounds st) (playback st) (ui st)
          (audioBuffer st) (audioFile st).

Definition set_actors_ui (st : ProjectState) (acts : list Actor) (u : UIState)
  : ProjectState :=
  mkState (project st) acts (backgrounds st) (playback st) u
          (audioBuffer st) (audioFile st).

(** [state.ui.selectedActorId === id] *)
Definition selected_is (sel : option string) (i : string) : bool :=
  match sel with
  | Some s => String.eqb s i
  | None => false
  end.

Definition clear_selectedActorId (u : UIState) : UIState :=
  mkUIState None (selectedBackgroundId u) (zoom u) (scrollX u) (scrollY u)
            (tool u).

Definition removeActor (rid : string) (st : ProjectState) : ProjectState :=
  set_actors_ui st
    (filter (fun a => negb (String.eqb (id a) rid)) (actors st))
    (if selected_is (selectedActorId (ui st)) rid
     then clear_selectedActorId (ui st)
     else ui st).

Definition with_keyframes (a : Actor) (kfs : list KeyFrame) : Actor :=
  mkActor (id a) (label a) (shapes a) kfs (interpolation a).

(** [(x, y) => x.time - y.time] *)
Definition by_time (x y : KeyFrame) : number := time x - time y.

(** The body of the [map] callback of [addKeyframe] for a matching actor. *)
Definition insertKeyframe (keyframe : KeyFrame) (kfs : list KeyFrame)
  : list KeyFrame :=
  let filtered :=
    filter (fun k => negb (Qeq_bool (time k) (time keyframe))) kfs in
  array_sort by_time (filtered ++ [keyframe]).

Definition addKeyframe (actorId : string) (keyframe : KeyFrame)
           (st : ProjectState) : ProjectState :=
  set_actors st
    (map (fun a =>
            if negb (String.eqb (id a) actorId) then a
            else with_keyframes a (insertKeyframe keyframe (keyframes a)))
         (actors st)).

(** *** The other keyframe actions *)

Definition removeKeyframe (actorId : string) (t : number) (st : ProjectState)
  : ProjectState :=
  set_actors st
    (map (fun a =>
            if String.eqb (id a) actorId
            then with_keyframes a
                   (filter (fun k => negb (Qeq_bool (time k) t)) (keyframes a))
            else a)
         (actors st)).

Definition updateKeyframe (actorId : string) (t v : number) (st : ProjectState)
  : ProjectState :=
  set_actors st
    (map (fun a =>
            if String.eqb (id a) actorId
            then with_keyframes a
                   (map (fun k => if Qeq_bool (time k) t
                                  then mkKeyFrame (time k) v else k)
                        (keyframes a))
            else a)
         (actors st)).

(** *** Background actions *)

Definition set_backgrounds (st : ProjectState) (bgs : list CanvasBackground)
  : ProjectState :=
  mkState (project st) (actors st) bgs (playback st) (ui st)
          (audioBuffer st) (audioFile st).

Definition set_project (st : ProjectState) (p : Project) : ProjectState :=
  mkState p (actors st) (backgrounds st) (playback st) (ui st)
          (audioBuffer st) (audioFile st).

(** [Math.max(0, ...state.backgrounds.map((b) => b.zIndex))] *)
Definition maxZIndex (bgs : list CanvasBackground) : number :=
  fold_left Math_max (map zIndex bgs) 0.

(** [addBackground]; [new_id] is what [uuidv4()] returned.  The canvas size
    is compared with the size read before the background was appended. *)
Definition addBackground (new_id : string) (url : string) (width height : number)
           (st : ProjectState) : string * ProjectState :=
  let st1 :=
    set_backgrounds st
      (backgrounds st
       ++ [mkCanvasBackground new_id url 0 0 width height
                              (maxZIndex (backgrounds st) + 1)]) in
  let curW := canvasWidth (project st) in
  let curH := canvasHeight (project st) in
  if Qlt_bool curW width || Qlt_bool curH height then
    (new_id,
     set_project st1
       (mkProject (name (project st1)) (songFilename (project st1))
                  (Math_max curW width) (Math_max curH height)))
  else (new_id, st1).

(** *** Playback and view actions *)

Definition set_playback (st : ProjectState) (p : PlaybackState) : ProjectState :=
  mkState (project st) (actors st) (backgrounds st) p (ui st)
          (audioBuffer st) (audioFile st).

Definition set_ui (st : ProjectState) (u : UIState) : ProjectState :=
  mkState (project st) (actors st) (backgrounds st) (playback st) u
          (audioBuffer st) (audioFile st).

Definition seek (t : number) (st : ProjectState) : ProjectState :=
  set_playback st
    (mkPlaybackState (Math_max 0 (Math_min t (duration (playback st))))
                     (isPlaying (playback st)) (duration (playback st))).

Definition selectActor (sel : option string) (st : ProjectState) : ProjectState :=
  set_ui st
    (mkUIState sel None (zoom (ui st)) (scrollX (ui st)) (scrollY (ui st))
               (tool (ui st))).

Definition selectBackground (sel : option string) (st : ProjectState)
  : ProjectState :=
  set_ui st
    (mkUIState None sel (zoom (ui st)) (scrollX (ui st)) (scrollY (ui st))
               (tool (ui st))).

Definition setZoom (z : number) (st : ProjectState) : ProjectState :=
  set_ui st
    (mkUIState (selectedActorId (ui st)) (selectedBackgroundId (ui st))
               (Math_max 10 (Math_min 500 z))
               (scrollX (ui st)) (scrollY (ui st)) (tool (ui st))).
(** *** Colour interpolation (interpolateColor) *)

(** The value of a character that [[a-f\d]] with the [i] flag accepts. *)
Definition hex_digit (c : ascii) : option Z :=
  let n := Z.of_N (N_of_ascii c) in
  if (48 <=? n)%Z && (n <=? 57)%Z then Some (n - 48)%Z
  else if (65 <=? n)%Z && (n <=? 70)%Z then Some (n - 55)%Z
  else if (97 <=? n)%Z && (n <=? 102)%Z then Some (n - 87)%Z
  else None.

(** [parseInt(pair, 16)] on a pair of hexadecimal digits. *)
Definition hex_pair (hi lo : ascii) : option Z :=
  match hex_digit hi, hex_digit lo with
  | Some h, Some l => Some (16 * h + l)%Z
  | _, _ => None
  end.

Record RGB : Type := mkRGB { rgb_r : Z; rgb_g : Z; rgb_b : Z }.

Definition black : RGB := mkRGB 0 0 0.

(** [parseHex]: the pattern is an optional [#] and exactly six hexadecimal
    digits; anything else is black. *)
Definition parseHex (hex : string) : RGB :=
  let digits :=
    match hex with
    | String "#"%char rest => rest
    | _ => hex
    end in
  match digits with
  | String a (String b (String c (String d (String e (String f EmptyString))))) =>
      match hex_pair a b, hex_pair c d, hex_pair e f with
      | Some r, Some g, Some bl => mkRGB r g bl
      | _, _, _ => black
      end
  | _ => black
  end.


(** [Math.round(off + (on - off) * value)] for one channel. *)
Definition mix (off on : Z) (value : number) : number :=
  Math_round (inject_Z off + (inject_Z on - inject_Z off) * value).

Section ColorString.
(** The conversion of a number to a string in a template literal, a
    function of the host. *)
Variable number_to_string : number -> string.


End ColorString.
End Store.

(* ------------------------------------------------------------------------ *)
(** ** History manager (zundo's [temporal] middleware around the store) *)

Module Temporal.

(** The slice [partialize] keeps. *)
Record Tracked : Type := mkTracked {
  t_project : Project;
  t_actors : list Actor;
  t_backgrounds : list CanvasBackground
}.

Definition partialize (st : Store.ProjectState) : Tracked :=
  mkTracked (Store.project st) (Store.actors st) (Store.backgrounds st).

(** [limit: 100] *)
Definition limit : nat := 100.

Section History.
Context {T : Type}.

(** Modelled from the spec: the state of the history manager, which lives
    in the zundo package and not in the sources.  [past] is oldest first,
    [future] is nearest first. *)
Record History : Type := mkHistory {
  past : list T;
  present : T;
  future : list T
}.

(** Modelled from the spec: the eviction of the zundo package, which is
    not part of the sources.  If [past] exceeds the capacity, the oldest
    entry is evicted. *)
Definition evict (p : list T) : list T :=
  if (limit <? List.length p)%nat then tl p else p.

(** Modelled from the spec: the reaction of the zundo package to a tracked
    mutation.  It pushes the previous present onto [past], installs the new
    present and clears [future]. *)
Definition commit (next : T) (h : History) : History :=
  mkHistory (evict (past h ++ [present h])) next [].

(** Modelled from the spec: [undo] of the zundo package.  A no-op on an
    empty [past]; otherwise the newest past entry becomes the present and
    the old present goes to the front of [future]. *)
Definition undo (h : History) : History :=
  match rev (past h) with
  | [] => h
  | newest :: older_rev =>
      mkHistory (rev older_rev) newest (present h :: future h)
  end.

(** Modelled from the spec: [redo] of the zundo package, the inverse of
    [undo]. *)
Definition redo (h : History) : History :=
  match future h with
  | [] => h
  | nearest :: rest => mkHistory (past h ++ [present h]) nearest rest
  end.

(** Modelled from the spec: a fresh history, nothing to undo or redo. *)
Definition init (s0 : T) : History := mkHistory [] s0 [].

(** [n] tracked mutations installing [s 1], ..., [s n] in turn. *)
Fixpoint mutate (s : nat -> T) (n : nat) (h : History) : History :=
  match n with
  | O => h
  | S n' => commit (s n) (mutate s n' h)
  end.

(** [undo()] repeated [k] times. *)
Fixpoint undo_n (k : nat) (h : History) : History :=
  match k with
  | O => h
  | S k' => undo_n k' (undo h)
  end.

(** Past and future together within the capacity. *)
Definition bounded (h : History) : Prop :=
  (List.length (past h) + List.length (future h) <= limit)%nat.

(** What can happen to a history. *)
Inductive transition : Type :=
| Mutation (next : T)
| Undo
| Redo.

Definition apply_transition (h : History) (tr : transition) : History :=
  match tr with
  | Mutation next => commit next h
  | Undo => undo h
  | Redo => redo h
  end.

Definition run (trs : list transition) (h : History) : History :=
  fold_left apply_transition trs h.
End History.
Arguments History : clear implicits.
Arguments transition : clear implicits.

End Temporal.

(* ------------------------------------------------------------------------ *)
(** ** Cue sampler (Toolbar: generateCues) *)

Module Toolbar.

(** [Math.round(x * 1000) / 1000] *)
Definition round3 (x : number) : number := Math_round (x * 1000) / 1000.



(** Cues that agree as JavaScript values. *)
Definition cue_eq (a b : ExportedCue) : Prop :=
  cue_t a == cue_t b /\ cue_id a = cue_id b /\ cue_state a == cue_state b.

Section CueSampler.
(** [String.prototype.localeCompare]: the collation of the host, known
    only through its sign. *)
Variable localeCompare : string -> string -> number.

(** [(a, b) => a.t - b.t || a.id.localeCompare(b.id)] *)
Definition cue_compare (a b : ExportedCue) : number :=
  num_or (cue_t a - cue_t b) (localeCompare (cue_id a) (cue_id b)).

(** The [duration === 0] branch: per actor, the state at 0 and then the
    keyframes as they are stored. *)
Definition keyframe_cues (acts : list Actor) : list ExportedCue :=
  flat_map
    (fun actor =>
       mkCue 0 (label actor) (getActorValueAtTime actor 0)
       :: map (fun kf => mkCue (time kf) (label actor) (value kf))
              (keyframes actor))
    acts.

(** The inner [for (const actor of actors)] of the sampled branch. *)
Definition tick_cues (acts : list Actor) (t : number) : list ExportedCue :=
  map (fun actor =>
         mkCue (round3 t) (label actor)
               (round3 (getActorValueAtTime actor t)))
      acts.

(** [for (let t = ...; t <= duration; t += tickRate)], entered at [t].
    The loop does not end when [tickRate <= 0 <= duration]; [fuel] bounds
    the number of iterations and [None] reports that it ran out. *)
Fixpoint sample_loop (fuel : nat) (acts : list Actor)
         (dur tickRate t : number) : option (list ExportedCue) :=
  if Qle_bool t dur then
    match fuel with
    | O => None
    | S fuel' =>
        match sample_loop fuel' acts dur tickRate (t + tickRate) with
        | Some rest => Some (tick_cues acts t ++ rest)
        | None => None
        end
    end
  else Some [].

(** The cues before the final sort. *)
Definition collect_cues (fuel : nat) (acts : list Actor)
           (pb : PlaybackState) (tickRate : number)
  : option (list ExportedCue) :=
  let dur := num_or (duration pb) 0 in
  if Qeq_bool dur 0 then Some (keyframe_cues acts)
  else sample_loop fuel acts dur tickRate 0.

Definition generateCues (fuel : nat) (acts : list Actor)
           (pb : PlaybackState) (tickRate : number)
  : option (list ExportedCue) :=
  option_map (array_sort cue_compare) (collect_cues fuel acts pb tickRate).

(** The order of the exported list: ascending [t], then [id]. *)
Definition cue_le (a b : ExportedCue) : Prop :=
  cue_t a < cue_t b
  \/ (cue_t a == cue_t b /\ localeCompare (cue_id a) (cue_id b) <= 0).
End CueSampler.

(** A concrete collation for examples: comparison by code units. *)
Definition codeunit_compare (a b : string) : number :=
  match String.compare a b with
  | Lt => -1
  | Eq => 0
  | Gt => 1
  end.

(** The order that "lexicographic [id]" names: ascending [t], then the ids
    character by character in code-unit order. *)
Definition cue_lexicographic_le : ExportedCue -> ExportedCue -> Prop :=
  cue_le codeunit_compare.

Definition is_upper (c : ascii) : bool :=
  ((65 <=? N_of_ascii c) && (N_of_ascii c <=? 90))%N.

Definition is_lower (c : ascii) : bool :=
  ((97 <=? N_of_ascii c) && (N_of_ascii c <=? 122))%N.

Definition to_lower (c : ascii) : ascii :=
  if is_upper c then ascii_of_N (N_of_ascii c + 32) else c.

Definition swap_case (c : ascii) : ascii :=
  if is_upper c then ascii_of_N (N_of_ascii c + 32)
  else if is_lower c then ascii_of_N (N_of_ascii c - 32)
  else c.

Fixpoint string_map (f : ascii -> ascii) (s : string) : string :=
  match s with
  | EmptyString => EmptyString
  | String c s' => String (f c) (string_map f s')
  end.

Definition sign (c : comparison) : number :=
  match c with
  | Lt => -1
  | Eq => 0
  | Gt => 1
  end.

(** [localeCompare] as browsers and Node implement it (the default
    collation of [Intl.Collator]) on strings of ASCII letters and digits:
    the strings are first compared with the case of the letters ignored;
    strings that differ in case only are ordered by the first such
    difference, the lower-case letter first.  So ["a"] precedes ["B"], which
    code-unit order puts before it, and ["a"] precedes ["A"]. *)
Definition letter_collation (a b : string) : number :=
  match String.compare (string_map to_lower a) (string_map to_lower b) with
  | Eq => sign (String.compare (string_map swap_case a)
                               (string_map swap_case b))
  | c => sign c
  end.

End Toolbar.

(* ------------------------------------------------------------------------ *)
(** ** Polygon hit test (CanvasPanel: isPointInPolygon) *)

Module Canvas.

(** [(yi > y) !== (yj > y)] *)
Definition crossing (y yi yj : number) : bool :=
  negb (Bool.eqb (Qlt_bool y yi) (Qlt_bool y yj)).

(** The condition of the [if] for one edge; [&&] evaluates the division
    only when the crossing condition holds. *)
Definition edge_test (x y xi yi xj yj : number) : option bool :=
  if crossing y yi yj then
    match checked_div ((xj - xi) * (y - yi)) (yj - yi) with
    | Some q => Some (Qlt_bool x (q + xi))
    | None => None
    end
  else Some false.

(** [for (let i = ..., j = ...; i < points.length; j = i++)], entered with
    [remaining = points.length - i] iterations to go. *)
Fixpoint ray_loop (points : list (number * number)) (x y : number)
         (remaining i j : nat) (inside : bool) : option bool :=
  match remaining with
  | O => Some inside
  | S remaining' =>
      let '(xi, yi) := nth i points (0, 0) in
      let '(xj, yj) := nth j points (0, 0) in
      match edge_test x y xi yi xj yj with
      | Some hit =>
          ray_loop points x y remaining' (S i) i
                   (if hit then negb inside else inside)
      | None => None
      end
  end.

Definition isPointInPolygon (x y : number) (polygon : Polygon) : option bool :=
  match polygon with
  | Rectangle rx ry w h =>
      Some (Qle_bool rx x && Qle_bool x (rx + w)
            && Qle_bool ry y && Qle_bool y (ry + h))
  | Arbitrary points =>
      ray_loop points x y (List.length points) 0 (List.length points - 1)
               false
  end.


(** *** Label anchor *)

(** [getPolygonBounds]: the pair [(centerX, centerY)]. *)
Definition getPolygonBounds (polygon : Polygon) : number * number :=
  match polygon with
  | Rectangle rx ry w h => (rx + w / 2, ry + h / 2)
  | Arbitrary points =>
      match points with
      | [] => (0, 0)
      | p :: ps =>
          (* [Math.min(...xs)] and [Math.max(...xs)] of a non-empty array *)
          let min_x := fold_left Math_min (map fst ps) (fst p) in
          let max_x := fold_left Math_max (map fst ps) (fst p) in
          let min_y := fold_left Math_min (map snd ps) (snd p) in
          let max_y := fold_left Math_max (map snd ps) (snd p) in
          ((min_x + max_x) / 2, (min_y + max_y) / 2)
      end
  end.

(** *** View: zoom and pan *)

Record ViewState : Type := mkViewState {
  v_zoom : number;
  panX : number;
  panY : number;
  isPanning : bool;
  panStartX : number;
  panStartY : number
}.

(** What [getBoundingClientRect()] of the container gives. *)
Record DOMRect : Type := mkDOMRect {
  r_left : number;
  r_top : number;
  r_width : number;
  r_height : number
}.

Record MouseEvent : Type := mkMouseEvent {
  button : Z;
  clientX : number;
  clientY : number
}.

Definition initialView : ViewState := mkViewState 1 0 0 false 0 0.

(** [getCanvasCoords]; [container] is [None] when the container is not
    mounted. *)
Definition getCanvasCoords (view : ViewState) (canvasW canvasH : number)
           (container : option DOMRect) (e : MouseEvent) : number * number :=
  match container with
  | None => (0, 0)
  | Some rect =>
      let containerCenterX := r_width rect / 2 in
      let containerCenterY := r_height rect / 2 in
      let mouseX := clientX e - r_left rect - containerCenterX in
      let mouseY := clientY e - r_top rect - containerCenterY in
      ((mouseX - panX view) / v_zoom view + canvasW / 2,
       (mouseY - panY view) / v_zoom view + canvasH / 2)
  end.

(** [handleWheel]; [deltaY] is the wheel delta of the event. *)
Definition handleWheel (view : ViewState) (container : option DOMRect)
           (deltaY : number) (e : MouseEvent) : ViewState :=
  let delta := if Qlt_bool 0 deltaY then 9 # 10 else 11 # 10 in
  let newZoom := Math_min (Math_max (v_zoom view * delta) (1 # 10)) 5 in
  match container with
  | None => view
  | Some rect =>
      let mouseX := clientX e - r_left rect - r_width rect / 2 in
      let mouseY := clientY e - r_top rect - r_height rect / 2 in
      let zoomRatio := newZoom / v_zoom view in
      let newPanX := mouseX - (mouseX - panX view) * zoomRatio in
      let newPanY := mouseY - (mouseY - panY view) * zoomRatio in
      mkViewState newZoom newPanX newPanY (isPanning view)
                  (panStartX view) (panStartY view)
  end.

Definition handleZoomIn (view : ViewState) : ViewState :=
  mkViewState (Math_min (v_zoom view * (125 # 100)) 5) (panX view) (panY view)
              (isPanning view) (panStartX view) (panStartY view).

Definition handleZoomOut (view : ViewState) : ViewState :=
  mkViewState (Math_max (v_zoom view / (125 # 100)) (1 # 10)) (panX view)
              (panY view) (isPanning view) (panStartX view) (panStartY view).

(** [handleFitToView]; [Math.min(scaleX, scaleY, 1)]. *)
Definition handleFitToView (view : ViewState) (canvasW canvasH : number)
           (container : option DOMRect) : ViewState :=
  match container with
  | None => view
  | Some rect =>
      let padding := 40 in
      let availableWidth := r_width rect - padding * 2 in
      let availableHeight := r_height rect - padding * 2 in
      let scaleX := availableWidth / canvasW in
      let scaleY := availableHeight / canvasH in
      mkViewState (Math_min (Math_min scaleX scaleY) 1) 0 0 false 0 0
  end.

(** *** Drawing a rectangle *)

(** The shape [handleMouseUp] makes of a drag from [(startX, startY)] to
    [(x, y)], or [None] when the drag is too small to count. *)
Definition drag_rectangle (startX startY x y : number) : option Polygon :=
  let rectX := Math_min startX x in
  let rectY := Math_min startY y in
  let width := Math_abs (x - startX) in
  let height := Math_abs (y - startY) in
  if Qlt_bool 10 width && Qlt_bool 10 height
  then Some (Rectangle rectX rectY width height)
  else None.

(** *** Drawing tools: the state of the panel and its event handlers *)

Record DrawingState : Type := mkDrawingState {
  isDrawing : bool;
  startX : number;
  startY : number;
  currentX : number;
  currentY : number;
  polygonPoints : list (number * number)
}.

Definition idleDrawing : DrawingState := mkDrawingState false 0 0 0 0 [].

(** The [useState] cells of the component. *)
Record Panel : Type := mkPanel {
  drawingState : DrawingState;
  viewState : ViewState;
  showActorAssignModal : bool;
  pendingShape : option Polygon;
  ctrlPressed : bool
}.

Definition initialPanel : Panel := mkPanel idleDrawing initialView false None false.

(** What a handler reads besides the panel state: the tool and canvas size
    of the store, and the container. *)
Record Env : Type := mkEnv {
  env_tool : Tool;
  env_canvasW : number;
  env_canvasH : number;
  env_container : option DOMRect
}.

Definition is_tool (a b : Tool) : bool :=
  match a, b with
  | tool_select, tool_select => true
  | tool_rectangle, tool_rectangle => true
  | tool_polygon, tool_polygon => true
  | _, _ => false
  end.

Definition coords (env : Env) (p : Panel) (e : MouseEvent) : number * number :=
  getCanvasCoords (viewState p) (env_canvasW env) (env_canvasH env)
                  (env_container env) e.

Definition with_drawing (p : Panel) (d : DrawingState) : Panel :=
  mkPanel d (viewState p) (showActorAssignModal p) (pendingShape p)
          (ctrlPressed p).

Definition with_view (p : Panel) (v : ViewState) : Panel :=
  mkPanel (drawingState p) v (showActorAssignModal p) (pendingShape p)
          (ctrlPressed p).

(** [setPendingShape(polygon); setShowActorAssignModal(true)] and the reset
    of the drawing state that follows. *)
Definition offer_shape (p : Panel) (polygon : Polygon) : Panel :=
  mkPanel idleDrawing (viewState p) true (Some polygon) (ctrlPressed p).

Definition with_current (d : DrawingState) (x y : number) : DrawingState :=
  mkDrawingState (isDrawing d) (startX d) (startY d) x y (polygonPoints d).

Definition handleMouseDown (env : Env) (p : Panel) (e : MouseEvent) : Panel :=
  if Z.eqb (button e) 1 || (ctrlPressed p && Z.eqb (button e) 0) then
    let v := viewState p in
    with_view p (mkViewState (v_zoom v) (panX v) (panY v) true
                             (clientX e - panX v) (clientY e - panY v))
  else if negb (Z.eqb (button e) 0) then p
  else
    let '(x, y) := coords env p e in
    if is_tool (env_tool env) tool_rectangle
    then with_drawing p (mkDrawingState true x y x y [])
    else p.

Definition handleMouseMove (env : Env) (p : Panel) (e : MouseEvent) : Panel :=
  if isPanning (viewState p) then
    let v := viewState p in
    with_view p (mkViewState (v_zoom v) (clientX e - panStartX v)
                             (clientY e - panStartY v) (isPanning v)
                             (panStartX v) (panStartY v))
  else
    let '(x, y) := coords env p e in
    if isDrawing (drawingState p) && is_tool (env_tool env) tool_rectangle
    then with_drawing p (with_current (drawingState p) x y)
    else if is_tool (env_tool env) tool_polygon
            && (0 <? List.length (polygonPoints (drawingState p)))%nat
    then with_drawing p (with_current (drawingState p) x y)
    else p.

Definition handleMouseUp (env : Env) (p : Panel) (e : MouseEvent) : Panel :=
  if isPanning (viewState p) then
    let v := viewState p in
    with_view p (mkViewState (v_zoom v) (panX v) (panY v) false
                             (panStartX v) (panStartY v))
  else if isDrawing (drawingState p) && is_tool (env_tool env) tool_rectangle
  then
    let '(x, y) := coords env p e in
    match drag_rectangle (startX (drawingState p)) (startY (drawingState p))
                         x y with
    | Some polygon => offer_shape p polygon
    | None => with_drawing p idleDrawing
    end
  else p.

Section PolygonTool.
(** [Math.sqrt], a function of the host. *)
Variable Math_sqrt : number -> number.

(** The [polygon] branch of [handleCanvasClick]. *)
Definition handleCanvasClick (env : Env) (p : Panel) (e : MouseEvent) : Panel :=
  if isPanning (viewState p) then p
  else
    let '(x, y) := coords env p e in
    if is_tool (env_tool env) tool_polygon then
      let points := polygonPoints (drawingState p) in
      let near_first :=
        if (3 <=? List.length points)%nat then
          let firstPoint := nth 0 points (0, 0) in
          let distance :=
            Math_sqrt ((x - fst firstPoint) * (x - fst firstPoint)
                       + (y - snd firstPoint) * (y - snd firstPoint)) in
          Qlt_bool distance (15 / v_zoom (viewState p))
        else false in
      if near_first then offer_shape p (Arbitrary points)
      else
        let d := drawingState p in
        with_drawing p
          (mkDrawingState (isDrawing d) (startX d) (startY d) x y
                          (points ++ [(x, y)]))
    else p.
End PolygonTool.

Definition handleDoubleClick (env : Env) (p : Panel) : Panel :=
  if is_tool (env_tool env) tool_polygon
     && (3 <=? List.length (polygonPoints (drawingState p)))%nat
  then offer_shape p (Arbitrary (polygonPoints (drawingState p)))
  else p.

(** The panel part of [handleAssignToActor] and [handleCancelShape]. *)
Definition close_modal (p : Panel) : Panel :=
  mkPanel (drawingState p) (viewState p) false None (ctrlPressed p).

(** [keydown] of Escape. *)
Definition handleEscape (p : Panel) : Panel :=
  mkPanel idleDrawing (viewState p) false None (ctrlPressed p).

(** [keydown] of Control, not a repeat. *)
Definition handleControlDown (p : Panel) : Panel :=
  mkPanel (drawingState p) (viewState p) (showActorAssignModal p)
          (pendingShape p) true.

(** [keyup] of Control. *)
Definition handleControlUp (p : Panel) : Panel :=
  let v := viewState p in
  mkPanel (drawingState p)
          (mkViewState (v_zoom v) (panX v) (panY v) false
                       (panStartX v) (panStartY v))
          (showActorAssignModal p) (pendingShape p) false.

Inductive PanelEvent : Type :=
| MouseDown (e : MouseEvent)
| MouseMove (e : MouseEvent)
| MouseUp (e : MouseEvent)
| Click (e : MouseEvent)
| DoubleClick
| Wheel (deltaY : number) (e : MouseEvent)
| ZoomIn
| ZoomOut
| FitToView
| ResetZoom
| AssignToActor
| CancelShape
| Escape
| ControlDown
| ControlUp.

(** One event, handled on the state the previous one left. *)
Definition handle (Math_sqrt : number -> number) (p : Panel)
           (ev : Env * PanelEvent) : Panel :=
  let env := fst ev in
  match snd ev with
  | MouseDown e => handleMouseDown env p e
  | MouseMove e => handleMouseMove env p e
  | MouseUp e => handleMouseUp env p e
  | Click e => handleCanvasClick Math_sqrt env p e
  | DoubleClick => handleDoubleClick env p
  | Wheel deltaY e =>
      with_view p (handleWheel (viewState p) (env_container env) deltaY e)
  | ZoomIn => with_view p (handleZoomIn (viewState p))
  | ZoomOut => with_view p (handleZoomOut (viewState p))
  | FitToView =>
      with_view p (handleFitToView (viewState p) (env_canvasW env)
                                   (env_canvasH env) (env_container env))
  | ResetZoom => with_view p initialView
  | AssignToActor => close_modal p
  | CancelShape => close_modal p
  | Escape => handleEscape p
  | ControlDown => handleControlDown p
  | ControlUp => handleControlUp p
  end.

Definition handle_all (Math_sqrt : number -> number)
           (evs : list (Env * PanelEvent)) (p : Panel) : Panel :=
  fold_left (handle Math_sqrt) evs p.

(** A pending shape is a rectangle larger than 10 by 10 or a polygon of at
    least three points. *)
Definition shape_acceptable (polygon : Polygon) : Prop :=
  match polygon with
  | Rectangle _ _ w h => 10 < w /\ 10 < h
  | Arbitrary points => (3 <= List.length points)%nat
  end.

Definition zoom_ok (p : Panel) : Prop :=
  1 # 10 <= v_zoom (viewState p) /\ v_zoom (viewState p) <= 5.

Definition is_fit (ev : PanelEvent) : bool :=
  match ev with
  | FitToView => true
  | _ => false
  end.

(** What every handler keeps: the pending shape is acceptable, and the
    assignment dialog is open exactly when a shape is pending. *)
Definition panel_ok (p : Panel) : Prop :=
  (forall polygon, pendingShape p = Some polygon -> shape_acceptable polygon)
  /\ (showActorAssignModal p = true <-> pendingShape p <> None).

(** *** Selecting by click *)

(** [isPointInPolygon] as the condition of an [if]. *)
Definition hits (x y : number) (polygon : Polygon) : bool :=
  match isPointInPolygon x y polygon with
  | Some inside => inside
  | None => false
  end.

(** The inner loop over [actor.shapes]; an actor without shapes is skipped. *)
Definition actor_hit (x y : number) (actor : Actor) : bool :=
  existsb (fun shape => hits x y (geometry shape)) (shapes actor).

Definition background_hit (x y : number) (bg : CanvasBackground) : bool :=
  Qle_bool (bg_x bg) x && Qle_bool x (bg_x bg + bg_width bg)
  && Qle_bool (bg_y bg) y && Qle_bool y (bg_y bg + bg_height bg).

(** The [select] branch of [handleCanvasClick] at canvas point [(x, y)]. *)
Definition click_select (x y : number) (st : Store.ProjectState)
  : Store.ProjectState :=
  match find (actor_hit x y) (rev (Store.actors st)) with
  | Some actor => Store.selectActor (Some (id actor)) st
  | None =>
      match find (background_hit x y) (rev (Store.backgrounds st)) with
      | Some bg => Store.selectBackground (Some (bg_id bg)) st
      | None => Store.selectBackground None (Store.selectActor None st)
      end
  end.
End Canvas.

(* ------------------------------------------------------------------------ *)
(** ** Project-file migration (types.ts: migrateGrisFile) *)

Module Migration.

Local Open Scope string_scope.

#[local] Set Warnings "-register-all".

(** What [JSON.parse] produces, and [undefined] for the value of a
    property that is not there. *)
Inductive json : Type :=
| JUndefined
| JNull
| JBool (b : bool)
| JNum (n : number)
| JStr (s : string)
| JArr (items : list json)
| JObj (fields : list (string * json)).

Inductive result (A : Type) : Type :=
| Ok (a : A)
| TypeError (msg : string).
Arguments Ok {A} a.
Arguments TypeError {A} msg.

Definition bind {A B} (r : result A) (k : A -> result B) : result B :=
  match r with
  | Ok a => k a
  | TypeError msg => TypeError msg
  end.

Notation "x <- r ;; k" := (bind r (fun x => k))
  (at level 61, r at next level, right associativity).

Fixpoint traverse {A B} (f : A -> result B) (l : list A) : result (list B) :=
  match l with
  | [] => Ok []
  | a :: l' => b <- f a ;; bs <- traverse f l' ;; Ok (b :: bs)
  end.

Definition truthy (v : json) : bool :=
  match v with
  | JUndefined | JNull => false
  | JBool b => b
  | JNum n => negb (Qeq_bool n 0)
  | JStr s => negb (String.eqb s "")
  | JArr _ | JObj _ => true
  end.

(** [a || b] *)
Definition or_else (a b : json) : json := if truthy a then a else b.

Fixpoint lookup (key : string) (fields : list (string * json)) : json :=
  match fields with
  | [] => JUndefined
  | (k, v) :: rest => if String.eqb k key then v else lookup key rest
  end.

(** [v.key], for the property names the migration reads: none of them is
    a property of a primitive or of an array; reading from [null] or
    [undefined] throws. *)
Definition get (v : json) (key : string) : result json :=
  match v with
  | JUndefined | JNull => TypeError "cannot read properties of null"
  | JObj fields => Ok (lookup key fields)
  | JBool _ | JNum _ | JStr _ | JArr _ => Ok JUndefined
  end.

(** [v === 1] *)
Definition is_one (v : json) : bool :=
  match v with
  | JNum n => Qeq_bool n 1
  | _ => false
  end.

(** [v.map(f)]: only arrays have a [map] method. *)
Definition array_map (f : json -> result json) (v : json) : result json :=
  match v with
  | JArr items => outs <- traverse f items ;; Ok (JArr outs)
  | _ => TypeError "map is not a function"
  end.

Definition GRIS_FILE_VERSION : number := 2.

(** The callback of [(file.actors || []).map(...)]. *)
Definition migrateActor (actor : json) : result json :=
  a_id <- get actor "id" ;;
  a_label <- get actor "label" ;;
  a_shape <- get actor "shape" ;;
  a_keyframes <- get actor "keyframes" ;;
  a_interpolation <- get actor "interpolation" ;;
  Ok (JObj [ ("id", a_id);
             ("label", a_label);
             ("shapes", if truthy a_shape then JArr [a_shape] else JArr []);
             ("keyframes", or_else a_keyframes (JArr []));
             ("interpolation", or_else a_interpolation (JStr "step")) ]).

Definition migrateGrisFile (data : json) : result json :=
  version <- get data "version" ;;
  if negb (truthy version) || is_one version then
    f_project <- get data "project" ;;
    f_backgrounds <- get data "backgrounds" ;;
    f_actors <- get data "actors" ;;
    new_actors <- array_map migrateActor (or_else f_actors (JArr [])) ;;
    Ok (JObj [ ("version", JNum GRIS_FILE_VERSION);
               ("project", f_project);
               ("backgrounds", or_else f_backgrounds (JArr []));
               ("actors", new_actors) ])
  else Ok data.

Definition is_object (v : json) : Prop :=
  match v with
  | JObj _ => True
  | _ => False
  end.

(** The version field is absent or equals 1. *)
Definition legacy_version (fields : list (string * json)) : Prop :=
  lookup "version" fields = JUndefined
  \/ exists n, lookup "version" fields = JNum n /\ n == 1.

(** The actors field is absent or an array of objects. *)
Definition actors_well_formed (fields : list (string * json)) : Prop :=
  lookup "actors" fields = JUndefined
  \/ exists items, lookup "actors" fields = JArr items /\ Forall is_object items.

(** What a migrated actor [new] owes to the legacy actor [old]. *)
Definition actor_defaults (old new : json) : Prop :=
  exists old_fields a_shapes a_keyframes a_interpolation,
    old = JObj old_fields
    /\ new = JObj [ ("id", lookup "id" old_fields);
                    ("label", lookup "label" old_fields);
                    ("shapes", a_shapes);
                    ("keyframes", a_keyframes);
                    ("interpolation", a_interpolation) ]
    /\ (lookup "keyframes" old_fields = JUndefined -> a_keyframes = JArr [])
    /\ (forall ks, lookup "keyframes" old_fields = JArr ks ->
                   a_keyframes = JArr ks)
    /\ (lookup "interpolation" old_fields = JUndefined ->
        a_interpolation = JStr "step")
    /\ (lookup "shape" old_fields = JNull \/ lookup "shape" old_fields = JUndefined ->
        a_shapes = JArr [])
    /\ (forall sh, lookup "shape" old_fields = JObj sh ->
                   a_shapes = JArr [JObj sh]).

(** A value whose properties can be read: anything but [null] and
    [undefined]. *)
Definition readable (v : json) : bool :=
  match v with
  | JUndefined | JNull => false
  | _ => true
  end.

(** The test [!file.version || file.version === 1] on a version value. *)
Definition is_legacy (version : json) : bool :=
  negb (truthy version) || is_one version.

(** An actors field the legacy branch gets through: falsy, or an array
    without [null] entries. *)
Definition actors_migratable (v : json) : bool :=
  match or_else v (JArr []) with
  | JArr items => forallb readable items
  | _ => false
  end.

Definition succeeds {A} (r : result A) : Prop :=
  match r with
  | Ok _ => True
  | TypeError _ => False
  end.

(** The properties of a legacy actor that the callback reads. *)
Definition legacy_actor_keys : list string :=
  ["id"; "label"; "shape"; "keyframes"; "interpolation"].

(** Two values that give the same outcome for every read of the callback;
    any other property, [shapes] among them, may differ. *)
Definition same_legacy_actor (a a' : json) : Prop :=
  Forall (fun key => get a key = get a' key) legacy_actor_keys.

(** [v.key] of a readable value. *)
Definition field (v : json) (key : string) : json :=
  match get v key with
  | Ok x => x
  | TypeError _ => JUndefined
  end.

(** A migrated actor [new] has the five properties of the current format,
    and its [shapes] is made from [old.shape] alone. *)
Definition shapes_from_shape (old new : json) : Prop :=
  exists new_fields,
    new = JObj new_fields
    /\ map fst new_fields = ["id"; "label"; "shapes"; "keyframes"; "interpolation"]
    /\ lookup "shapes" new_fields
       = if truthy (field old "shape") then JArr [field old "shape"]
         else JArr [].
End Migration.

(* ------------------------------------------------------------------------ *)
(** ** Timeline track (ActorTrack) *)

Module ActorTrack.

(** [handleDoubleClick] on the track of [actor]: [x] is the pointer offset
    in the track, [zoom] the pixels per second, [editing] tells whether a
    keyframe value is being edited. *)
Definition handleDoubleClick (editing : bool) (actor : Actor) (x zoom : number)
           (st : Store.ProjectState) : Store.ProjectState :=
  if editing then st
  else
    let t := Math_max 0 (x / zoom) in
    let currentValue := getActorValueAtTime actor t in
    let newValue := if Qlt_bool (1 # 2) currentValue then 0 else 1 in
    Store.addKeyframe (id actor) (mkKeyFrame t newValue) st.

(** The [mousemove] handler of a keyframe drag.  [actor] is the actor the
    track was rendered with, [keyframeTime] the time of the dragged keyframe
    so far, [originalTime] its time when the drag began, [deltaX] the pointer
    travel in pixels since then. *)
Definition handleKeyframeDrag (actor : Actor)
           (keyframeTime originalTime deltaX zoom : number)
           (st : Store.ProjectState) : Store.ProjectState :=
  let deltaTime := deltaX / zoom in
  let newTime :=
    Math_max 0 (Math_min (duration (Store.playback st))
                         (originalTime + deltaTime)) in
  let st1 := Store.removeKeyframe (id actor) keyframeTime st in
  match find (fun k => Qeq_bool (time k) keyframeTime) (keyframes actor) with
  | Some kf => Store.addKeyframe (id actor) (mkKeyFrame newTime (value kf)) st1
  | None => st1
  end.

(** The new value of [handleValueSubmit], from the number [parsed] that
    [parseFloat(editValue) || 0] gave: [Math.max(0, Math.min(1, parsed))]. *)
Definition submitted_value (parsed : number) : number :=
  Math_max 0 (Math_min 1 parsed).

(** [handleValueSubmit] for the keyframe being edited, if any. *)
Definition handleValueSubmit (editingKeyframe : option KeyFrame) (actor : Actor)
           (parsed : number) (st : Store.ProjectState) : Store.ProjectState :=
  match editingKeyframe with
  | Some kf =>
      Store.addKeyframe (id actor)
        (mkKeyFrame (time kf) (submitted_value parsed))
        (Store.removeKeyframe (id actor) (time kf) st)
  | None => st
  end.

End ActorTrack.

(* ------------------------------------------------------------------------ *)
(** ** Example inputs *)

Module Examples.

(** Two keyframes (0,0) and (10,1), linear mode. *)
Definition ramp : Actor :=
  mkActor "a1" "A" [] [mkKeyFrame 0 0; mkKeyFrame 10 1] linear.

Definition blank_project : Project := mkProject "Untitled Project" "" 1920 1080.

Definition blank_ui : UIState := mkUIState None None 100 0 0 tool_select.

Definition one_actor : Store.ProjectState :=
  Store.mkState blank_project [ramp] [] (mkPlaybackState 0 false 0)
                (mkUIState (Some "a1"%string) None 100 0 0 tool_select)
                None None.

(** Tracked slices that differ in the number of actors. *)
Definition snapshot (i : nat) : Temporal.Tracked :=
  Temporal.mkTracked blank_project (repeat ramp i) [].

(** The square of the design document's test. *)
Definition square : Polygon := Arbitrary [(0, 0); (10, 0); (10, 10); (0, 10)].

Local Open Scope string_scope.

(** A version-1 file with one actor that has a shape and no keyframes, and
    one that has neither; no background list. *)
Definition legacy_file : Migration.json :=
  Migration.JObj
    [ ("version", Migration.JNum 1);
      ("project", Migration.JObj [("name", Migration.JStr "My Show")]);
      ("actors",
       Migration.JArr
         [ Migration.JObj
             [ ("id", Migration.JStr "a1");
               ("label", Migration.JStr "A");
               ("shape", Migration.JObj [("offColor", Migration.JStr "#000000")]);
               ("interpolation", Migration.JStr "linear") ];
           Migration.JObj
             [ ("id", Migration.JStr "a2");
               ("label", Migration.JStr "B");
               ("shape", Migration.JNull) ] ]) ].

Definition legacy_fields : list (string * Migration.json) :=
  match legacy_file with
  | Migration.JObj fields => fields
  | _ => []
  end.

(** One actor "A" with keyframes (0,0) and (1,1), linear mode. *)
Definition actor_A : Actor :=
  mkActor "a" "A" [] [mkKeyFrame 0 0; mkKeyFrame 1 1] linear.

(** One actor with a single keyframe at 0.0625 of value 0.0625. *)
Definition actor_sixteenth : Actor :=
  mkActor "s" "S" [] [mkKeyFrame (1 # 16) (1 # 16)] step.

Definition no_audio : PlaybackState := mkPlaybackState 0 false 0.

Definition one_second : PlaybackState := mkPlaybackState 0 false 1.

Definition sampled_A : option (list ExportedCue) :=
  Toolbar.generateCues Toolbar.codeunit_compare 5 [actor_A] one_second (1 # 2).

(** Step mode, keyframes stored out of order. *)
Definition step_unsorted : Actor :=
  mkActor "u" "U" [] [mkKeyFrame 5 1; mkKeyFrame 2 0] step.

(** Two actors without keyframes, labelled "B" and "a". *)
Definition actor_B : Actor := mkActor "b1" "B" [] [] step.

Definition actor_a : Actor := mkActor "b2" "a" [] [] step.

(*EXAMPLES*)
End Examples.
Import Examples.

(* ======================================================================== *)
(** * Properties *)

(** ** Numbers *)

Lemma Qlt_bool_iff (x y : Q) : Qlt_bool x y = true <-> x < y.
Proof.
  unfold Qlt_bool. rewrite negb_true_iff.
  split; intro H.
  - apply Qnot_le_lt. intro Hle. apply Qle_bool_iff in Hle. congruence.
  - destruct (Qle_bool y x) eqn:E; [|reflexivity].
    apply Qle_bool_iff in E. exfalso. exact (Qlt_not_le _ _ H E).
Qed.

Lemma Qlt_bool_false_iff (x y : Q) : Qlt_bool x y = false <-> y <= x.
Proof.
  unfold Qlt_bool. rewrite negb_false_iff. apply Qle_bool_iff.
Qed.

Lemma Qle_bool_false_iff (x y : Q) : Qle_bool x y = false <-> y < x.
Proof.
  rewrite <- Qlt_bool_iff. unfold Qlt_bool.
  destruct (Qle_bool x y); simpl; intuition congruence.
Qed.

Lemma Qeq_bool_false_iff (x y : Q) : Qeq_bool x y = false <-> ~ x == y.
Proof.
  rewrite <- Qeq_bool_iff. destruct (Qeq_bool x y); intuition congruence.
Qed.

(** Turns the boolean tests of the embedding into propositions. *)
Ltac qbool :=
  repeat match goal with
  | H : Qle_bool _ _ = true |- _ => apply Qle_bool_iff in H
  | H : Qle_bool _ _ = false |- _ => apply Qle_bool_false_iff in H
  | H : Qlt_bool _ _ = true |- _ => apply Qlt_bool_iff in H
  | H : Qlt_bool _ _ = false |- _ => apply Qlt_bool_false_iff in H
  | H : Qeq_bool _ _ = true |- _ => apply Qeq_bool_iff in H
  | H : Qeq_bool _ _ = false |- _ => apply Qeq_bool_false_iff in H
  end.

(* ------------------------------------------------------------------------ *)
(** ** Interpolation engine *)

Section Interpolation.

Lemma last_opt_nonempty {A} (l : list A) (x : A) (d d' : option A) :
  last_opt (x :: l) d = last_opt (x :: l) d'.
Proof. reflexivity. Qed.

Lemma last_opt_In {A} (l : list A) (d : option A) (m : A) :
  last_opt l d = Some m -> In m l \/ (l = [] /\ d = Some m).
Proof.
  revert d. induction l as [|x l IH]; intros d H; simpl in *.
  - right. split; [reflexivity | exact H].
  - left. destruct (IH _ H) as [Hin | [-> E]].
    + right. exact Hin.
    + left. congruence.
Qed.

Lemma last_opt_cons {A} (l : list A) (x : A) (d : option A) :
  exists m, last_opt (x :: l) d = Some m.
Proof.
  revert x d. induction l as [|y l IH]; intros x d.
  - exists x. reflexivity.
  - exact (IH y (Some x)).
Qed.

(** The loop keeps the last keyframe with [time <= t] ... *)
Lemma surrounding_fst (kfs : list KeyFrame) (t : Q) (b a : option KeyFrame) :
  fst (surrounding kfs t b a)
  = last_opt (filter (fun k => Qle_bool (time k) t) kfs) b.
Proof.
  revert b a. induction kfs as [|k kfs IH]; intros b a; simpl.
  - reflexivity.
  - rewrite IH. destruct (Qle_bool (time k) t); reflexivity.
Qed.

(** ... and the first keyframe with [time >= t]. *)
Lemma surrounding_snd (kfs : list KeyFrame) (t : Q) (b a : option KeyFrame) :
  snd (surrounding kfs t b a)
  = match a with
    | Some _ => a
    | None => hd_error (filter (fun k => Qle_bool t (time k)) kfs)
    end.
Proof.
  revert b a. induction kfs as [|k kfs IH]; intros b a; simpl.
  - destruct a; reflexivity.
  - rewrite IH. destruct a as [a0|]; simpl.
    + rewrite andb_false_r. reflexivity.
    + rewrite andb_true_r. destruct (Qle_bool t (time k)); reflexivity.
Qed.

Lemma surrounding_eq (kfs : list KeyFrame) (t : Q) :
  surrounding kfs t None None
  = (last_opt (filter (fun k => Qle_bool (time k) t) kfs) None,
     hd_error (filter (fun k => Qle_bool t (time k)) kfs)).
Proof.
  rewrite (surjective_pairing (surrounding kfs t None None)).
  rewrite surrounding_fst, surrounding_snd. reflexivity.
Qed.

Lemma sorted_unique_filter (f : KeyFrame -> bool) (kfs : list KeyFrame) :
  sorted_unique kfs -> sorted_unique (filter f kfs).
Proof.
  unfold sorted_unique. induction 1 as [|k l Hs IH Hk]; simpl.
  - constructor.
  - destruct (f k); [|exact IH].
    constructor; [exact IH|].
    rewrite Forall_forall in *. intros x Hx.
    apply filter_In in Hx. apply Hk. tauto.
Qed.

(** On a sorted list the greatest time is at the end ... *)
Lemma greatest_is_last (l : list KeyFrame) :
  sorted_unique l -> fold_right keep_later None l = last_opt l None.
Proof.
  induction 1 as [|k l Hs IH Hk]; simpl.
  - reflexivity.
  - rewrite IH. destruct l as [|x l]; [reflexivity|].
    rewrite (last_opt_nonempty l x (Some k) None).
    destruct (last_opt_cons l x None) as [m E]. rewrite E.
    simpl. apply last_opt_In in E. destruct E as [Hin | [Hnil _]];
      [|discriminate].
    rewrite Forall_forall in Hk. specialize (Hk _ Hin). unfold kf_before in Hk.
    destruct (Qlt_bool (time m) (time k)) eqn:Hlt; [|reflexivity].
    qbool. exfalso. apply (Qlt_irrefl (time k)). now apply Qlt_trans with (time m).
Qed.

Lemma keep_earlier_In (l : list KeyFrame) (m : KeyFrame) :
  fold_right keep_earlier None l = Some m -> In m l.
Proof.
  revert m. induction l as [|k l IH]; intros m H; simpl in *.
  - discriminate.
  - destruct (fold_right keep_earlier None l) as [m'|]; simpl in H.
    + destruct (Qlt_bool (time k) (time m')); inversion H; subst; auto.
    + inversion H; auto.
Qed.

(** ... and the least time at the front. *)
Lemma least_is_first (l : list KeyFrame) :
  sorted_unique l -> fold_right keep_earlier None l = hd_error l.
Proof.
  destruct 1 as [|k l Hs Hk]; simpl.
  - reflexivity.
  - destruct (fold_right keep_earlier None l) as [m|] eqn:E; [|reflexivity].
    simpl. apply keep_earlier_In in E.
    rewrite Forall_forall in Hk. specialize (Hk _ E). unfold kf_before in Hk.
    destruct (Qlt_bool (time k) (time m)) eqn:Hlt; [reflexivity|].
    qbool. exfalso. exact (Qlt_not_le _ _ Hk Hlt).
Qed.

Lemma surrounding_ref (kfs : list KeyFrame) (t : Q) :
  sorted_unique kfs ->
  surrounding kfs t None None = (before_ref kfs t, after_ref kfs t).
Proof.
  intro Hs. rewrite surrounding_eq. unfold before_ref, after_ref.
  rewrite greatest_is_last, least_is_first
    by (apply sorted_unique_filter; exact Hs).
  reflexivity.
Qed.

(** What the loop returns brackets the query time, sorted list or not. *)
Lemma surrounding_before (kfs : list KeyFrame) (t : Q) (b : KeyFrame)
      (oa : option KeyFrame) :
  surrounding kfs t None None = (Some b, oa) -> In b kfs /\ time b <= t.
Proof.
  rewrite surrounding_eq. intro H. inversion H as [[Hb Ha]].
  apply last_opt_In in Hb. destruct Hb as [Hin | [_ Habs]]; [|discriminate].
  apply filter_In in Hin. destruct Hin as [Hin Hle]. qbool. auto.
Qed.

Lemma surrounding_after (kfs : list KeyFrame) (t : Q) (a : KeyFrame)
      (ob : option KeyFrame) :
  surrounding kfs t None None = (ob, Some a) -> In a kfs /\ t <= time a.
Proof.
  rewrite surrounding_eq. intro H. inversion H as [[Hb Ha]].
  destruct (filter (fun k => Qle_bool t (time k)) kfs) as [|x l] eqn:E;
    [discriminate|].
  simpl in Ha. inversion Ha; subst x.
  assert (Hin : In a (filter (fun k => Qle_bool t (time k)) kfs))
    by (rewrite E; left; reflexivity).
  apply filter_In in Hin. destruct Hin as [Hin Hle]. qbool. auto.
Qed.

Lemma lerp_param_unit (b a : KeyFrame) (t : Q) :
  time b <= t -> t <= time a -> ~ time b == time a ->
  0 <= lerp_param b a t /\ lerp_param b a t <= 1.
Proof.
  intros Hb Ha Hne. unfold lerp_param.
  assert (Hpos : 0 < time a - time b).
  { destruct (Qlt_le_dec (time b) (time a)) as [Hlt|Hge]; [lra|].
    exfalso. apply Hne. lra. }
  split.
  - apply Qle_shift_div_l; [exact Hpos | lra].
  - apply Qle_shift_div_r; [exact Hpos | lra].
Qed.


End Interpolation.

(** C1. For an actor whose keyframes are sorted ascending with unique times,
    [getActorValueAtTime] is the reference definition of the interpolation
    engine: 0 on an empty list; otherwise, with [before] the keyframe of
    greatest time at or before the query and [after] the keyframe of least
    time at or after it, the value of [after] when there is no [before], the
    value of [before] when there is no [after], the shared value when the two
    times coincide, the value of [before] in step mode, and
    [before.value + ((t - before.time) / (after.time - before.time)) *
    (after.value - before.value)] in linear mode. *)
Theorem getActorValueAtTime_is_reference (actor : Actor) (t : Q) :
  sorted_unique (keyframes actor) ->
  getActorValueAtTime actor t = valueAt_ref actor t.
Proof.
  intro Hs. unfold getActorValueAtTime, valueAt_ref.
  destruct (keyframes actor) as [|k kfs] eqn:Ekf; [reflexivity|].
  rewrite (surrounding_ref _ t Hs).
  destruct (before_ref (k :: kfs) t) as [b|], (after_ref (k :: kfs) t) as [a|];
    reflexivity.
Qed.

Lemma ramp_sorted : sorted_unique (keyframes ramp).
Proof.
  unfold sorted_unique, kf_before; simpl.
  repeat constructor; simpl; lra.
Qed.

Lemma getActorValueAtTime_is_reference_witness :
  sorted_unique (keyframes ramp)
  /\ getActorValueAtTime ramp 5 = valueAt_ref ramp 5.
Proof.
  split.
  - exact ramp_sorted.
  - apply (getActorValueAtTime_is_reference ramp 5). exact ramp_sorted.
Defined.

(** Without the precondition the loop and the reference part ways: on an
    unsorted list the loop keeps the last keyframe at or before the query,
    not the latest one. *)
Example unsorted_differs :
  let a := mkActor "a" "A" [] [mkKeyFrame 5 1; mkKeyFrame 3 0] step in
  getActorValueAtTime a 6 = 0 /\ valueAt_ref a 6 = 1.
Proof. split; reflexivity. Qed.

Example linear_midpoint : getActorValueAtTime ramp 5 == 1 # 2.
Proof. reflexivity. Qed.




(* ------------------------------------------------------------------------ *)
(** ** Array sort *)

Section SortFacts.
Context {A : Type} (compareFn : A -> A -> Q).

Lemma sort_insert_In (x y : A) (l : list A) :
  In y (sort_insert compareFn x l) <-> y = x \/ In y l.
Proof.
  induction l as [|z l IH]; simpl.
  - intuition.
  - destruct (Qlt_bool 0 (compareFn x z)); simpl; [rewrite IH|]; intuition.
Qed.

Lemma sort_insert_perm (x : A) (l : list A) :
  Permutation (sort_insert compareFn x l) (x :: l).
Proof.
  induction l as [|z l IH]; simpl.
  - reflexivity.
  - destruct (Qlt_bool 0 (compareFn x z)); [|reflexivity].
    rewrite IH. apply perm_swap.
Qed.

Lemma array_sort_perm (l : list A) : Permutation (array_sort compareFn l) l.
Proof.
  induction l as [|x l IH]; simpl.
  - reflexivity.
  - rewrite sort_insert_perm. now constructor.
Qed.

Lemma array_sort_Forall (P : A -> Prop) (l : list A) :
  Forall P l -> Forall P (array_sort compareFn l).
Proof.
  intro H. rewrite Forall_forall in *. intros x Hx. apply H.
  apply Permutation_in with (array_sort compareFn l);
    [apply array_sort_perm | exact Hx].
Qed.

Lemma filter_sort_insert_false (p : A -> bool) (x : A) (l : list A) :
  p x = false ->
  filter p (sort_insert compareFn x l) = filter p l.
Proof.
  intro Hx. induction l as [|z l IH]; simpl.
  - now rewrite Hx.
  - destruct (Qlt_bool 0 (compareFn x z)); simpl.
    + now rewrite IH.
    + now rewrite Hx.
Qed.

(** A consistent comparator: what ECMAScript asks of [compareFn]. *)
Hypothesis cmp_total : forall a b, 0 < compareFn a b -> compareFn b a <= 0.
Hypothesis cmp_trans :
  forall a b c,
    cmp_le compareFn a b -> cmp_le compareFn b c -> cmp_le compareFn a c.

Lemma sort_insert_sorted (x : A) (l : list A) :
  StronglySorted (cmp_le compareFn) l ->
  StronglySorted (cmp_le compareFn) (sort_insert compareFn x l).
Proof.
  unfold cmp_le in *.
  induction 1 as [|z l Hs IH Hz]; simpl.
  - repeat constructor.
  - destruct (Qlt_bool 0 (compareFn x z)) eqn:E; qbool.
    + constructor; [exact IH|].
      rewrite Forall_forall in *. intros y Hy.
      apply sort_insert_In in Hy. destruct Hy as [-> | Hy].
      * apply cmp_total. exact E.
      * apply Hz. exact Hy.
    + constructor; [constructor; assumption|].
      constructor; [exact E|].
      rewrite Forall_forall in *. intros y Hy.
      apply cmp_trans with z; [exact E | apply Hz; exact Hy].
Qed.

Lemma array_sort_sorted (l : list A) :
  StronglySorted (cmp_le compareFn) (array_sort compareFn l).
Proof.
  induction l as [|x l IH]; simpl.
  - constructor.
  - apply sort_insert_sorted. exact IH.
Qed.
End SortFacts.

(* ------------------------------------------------------------------------ *)
(** ** Store actions *)

Section Keyframes.

Import Store.

Lemma insert_keeps_sorted_unique (x : KeyFrame) (l : list KeyFrame) :
  sorted_unique l ->
  Forall (fun y => ~ time y == time x) l ->
  sorted_unique (sort_insert by_time x l).
Proof.
  unfold sorted_unique.
  induction 1 as [|z l Hs IH Hz]; intro Hne; simpl.
  - repeat constructor.
  - inversion Hne as [|? ? Hzx Hne']; subst.
    unfold by_time at 1.
    destruct (Qlt_bool 0 (time x - time z)) eqn:E; qbool.
    + constructor; [apply IH; exact Hne'|].
      rewrite Forall_forall in *. intros y Hy.
      apply sort_insert_In in Hy. destruct Hy as [-> | Hy].
      * unfold kf_before. lra.
      * apply Hz. exact Hy.
    + assert (Hlt : time x < time z).
      { destruct (Qlt_le_dec (time x) (time z)) as [Hlt|Hge]; [exact Hlt|].
        exfalso. apply Hzx. lra. }
      constructor; [constructor; assumption|].
      constructor; [exact Hlt|].
      rewrite Forall_forall in *. intros y Hy.
      specialize (Hz _ Hy). unfold kf_before in *. lra.
Qed.

(** Sorting a sorted array with one more keyframe at a fresh time. *)
Lemma sort_snoc_fresh (kf : KeyFrame) (l : list KeyFrame) :
  sorted_unique l ->
  Forall (fun y => ~ time y == time kf) l ->
  sorted_unique (fold_right (sort_insert by_time) [kf] l)
  /\ (forall z, In z (fold_right (sort_insert by_time) [kf] l)
                <-> z = kf \/ In z l).
Proof.
  induction 1 as [|y l Hs IH Hy]; intro Hne; simpl.
  - split; [repeat constructor | intuition].
  - inversion Hne as [|? ? Hykf Hne']; subst.
    destruct (IH Hne') as [IHs IHin].
    split.
    + apply insert_keeps_sorted_unique; [exact IHs|].
      rewrite Forall_forall in *. intros z Hz.
      apply IHin in Hz. destruct Hz as [-> | Hz].
      * intro Heq. apply Hykf. symmetry. exact Heq.
      * specialize (Hy _ Hz). unfold kf_before in Hy. lra.
    + intro z. rewrite sort_insert_In, IHin. intuition.
Qed.

Lemma insertKeyframe_unfold (kf : KeyFrame) (kfs : list KeyFrame) :
  Store.insertKeyframe kf kfs
  = fold_right (sort_insert by_time) [kf]
      (filter (fun k => negb (Qeq_bool (time k) (time kf))) kfs).
Proof.
  unfold Store.insertKeyframe, array_sort. rewrite fold_right_app. reflexivity.
Qed.

Lemma filtered_fresh (kf : KeyFrame) (kfs : list KeyFrame) :
  Forall (fun y => ~ time y == time kf)
         (filter (fun k => negb (Qeq_bool (time k) (time kf))) kfs).
Proof.
  rewrite Forall_forall. intros y Hy. apply filter_In in Hy.
  destruct Hy as [_ Hy]. apply negb_true_iff in Hy. qbool. exact Hy.
Qed.

(** [insertKeyframe] on a sorted list: sorted again, one entry at the new
    time, the others as they were. *)
Lemma insertKeyframe_spec (kf : KeyFrame) (kfs : list KeyFrame) :
  sorted_unique kfs ->
  sorted_unique (Store.insertKeyframe kf kfs)
  /\ filter (fun k => Qeq_bool (time k) (time kf)) (Store.insertKeyframe kf kfs)
     = [kf]
  /\ (forall k, ~ time k == time kf ->
                (In k (Store.insertKeyframe kf kfs) <-> In k kfs)).
Proof.
  intro Hs. rewrite insertKeyframe_unfold.
  set (filtered := filter (fun k => negb (Qeq_bool (time k) (time kf))) kfs).
  assert (Hfs : sorted_unique filtered) by (apply sorted_unique_filter; exact Hs).
  pose proof (filtered_fresh kf kfs) as Hfresh. fold filtered in Hfresh.
  destruct (sort_snoc_fresh kf filtered Hfs Hfresh) as [Hsorted Hin].
  split; [exact Hsorted|]. split.
  - clear Hsorted Hin Hfs. induction filtered as [|y l IH]; simpl.
    + now rewrite Qeq_bool_refl.
    + inversion Hfresh as [|? ? Hy Hl]; subst.
      rewrite filter_sort_insert_false; [apply IH; exact Hl|].
      apply Qeq_bool_false_iff. exact Hy.
  - intros k Hk. rewrite Hin. unfold filtered. rewrite filter_In.
    split.
    + intros [-> | [H _]]; [exfalso; apply Hk; reflexivity | exact H].
    + intro H. right. split; [exact H|].
      apply negb_true_iff, Qeq_bool_false_iff. exact Hk.
Qed.

End Keyframes.

Lemma addKeyframe_nth (st : Store.ProjectState) (i : nat) (a : Actor)
      (kf : KeyFrame) :
  nth_error (Store.actors st) i = Some a ->
  nth_error (Store.actors (Store.addKeyframe (id a) kf st)) i
  = Some (Store.with_keyframes a (Store.insertKeyframe kf (keyframes a))).
Proof.
  intro H. unfold Store.addKeyframe; simpl.
  rewrite nth_error_map, H. simpl.
  now rewrite String.eqb_refl.
Qed.

(** C3. For an actor whose keyframe list is sorted ascending with unique
    times, [addKeyframe(actorId, {time, value})] leaves exactly one keyframe
    at that time, carrying the new value; the keyframes at other times are
    the ones that were there; the list is again sorted ascending with unique
    times.  In particular adding (5, 0.2) and then (5, 0.9) leaves exactly
    one entry at time 5, with value 0.9. *)
Theorem addKeyframe_overwrites (st : Store.ProjectState) (i : nat) (a : Actor)
        (kf : KeyFrame) :
  nth_error (Store.actors st) i = Some a ->
  sorted_unique (keyframes a) ->
  (exists a',
      nth_error (Store.actors (Store.addKeyframe (id a) kf st)) i = Some a'
      /\ (id a' = id a /\ label a' = label a /\ shapes a' = shapes a
          /\ interpolation a' = interpolation a)
      /\ filter (fun k => Qeq_bool (time k) (time kf)) (keyframes a') = [kf]
      /\ (forall k, ~ time k == time kf ->
                    (In k (keyframes a') <-> In k (keyframes a)))
      /\ sorted_unique (keyframes a'))
  /\ (exists a'',
         nth_error
           (Store.actors
              (Store.addKeyframe (id a) (mkKeyFrame 5 (9 # 10))
                 (Store.addKeyframe (id a) (mkKeyFrame 5 (2 # 10)) st))) i
         = Some a''
         /\ filter (fun k => Qeq_bool (time k) 5) (keyframes a'')
            = [mkKeyFrame 5 (9 # 10)]).
Proof.
  intros Hnth Hs. split.
  - eexists. split; [apply addKeyframe_nth; exact Hnth|].
    destruct (insertKeyframe_spec kf (keyframes a) Hs) as (H1 & H2 & H3).
    simpl. repeat split; try assumption; apply H3; assumption.
  - pose proof (addKeyframe_nth st i a (mkKeyFrame 5 (2 # 10)) Hnth) as H1.
    set (a1 := Store.with_keyframes a
                 (Store.insertKeyframe (mkKeyFrame 5 (2 # 10)) (keyframes a))) in *.
    pose proof (addKeyframe_nth _ i a1 (mkKeyFrame 5 (9 # 10)) H1) as H2.
    eexists. split; [exact H2|].
    destruct (insertKeyframe_spec (mkKeyFrame 5 (2 # 10)) (keyframes a) Hs)
      as (Hs1 & _).
    destruct (insertKeyframe_spec (mkKeyFrame 5 (9 # 10)) (keyframes a1) Hs1)
      as (_ & Hone & _).
    exact Hone.
Qed.

Lemma addKeyframe_overwrites_witness :
  nth_error (Store.actors one_actor) 0 = Some ramp
  /\ sorted_unique (keyframes ramp)
  /\ exists a'',
      nth_error
        (Store.actors
           (Store.addKeyframe (id ramp) (mkKeyFrame 5 (9 # 10))
              (Store.addKeyframe (id ramp) (mkKeyFrame 5 (2 # 10)) one_actor))) 0
      = Some a''
      /\ filter (fun k => Qeq_bool (time k) 5) (keyframes a'')
         = [mkKeyFrame 5 (9 # 10)].
Proof.
  split; [reflexivity|]. split; [exact ramp_sorted|].
  exact (proj2 (addKeyframe_overwrites one_actor 0 ramp (mkKeyFrame 1 1)
                  eq_refl ramp_sorted)).
Defined.

Example addKeyframe_twice_at_5 :
  map keyframes
      (Store.actors
         (Store.addKeyframe "a1" (mkKeyFrame 5 (9 # 10))
            (Store.addKeyframe "a1" (mkKeyFrame 5 (2 # 10)) one_actor)))
  = [[mkKeyFrame 0 0; mkKeyFrame 5 (9 # 10); mkKeyFrame 10 1]].
Proof. reflexivity. Qed.

(** On a list with two keyframes at one time, [addKeyframe] at another time
    leaves both: the precondition of C3 is needed for its conclusion. *)
Example addKeyframe_keeps_old_duplicates :
  Store.insertKeyframe (mkKeyFrame 1 1) [mkKeyFrame 2 0; mkKeyFrame 2 1]
  = [mkKeyFrame 1 1; mkKeyFrame 2 0; mkKeyFrame 2 1].
Proof. reflexivity. Qed.

Section RemoveActor.
Import Store.

Lemma filter_all {X} (p : X -> bool) (l : list X) :
  (forall x, In x l -> p x = true) -> filter p l = l.
Proof.
  induction l as [|x l IH]; intro H; simpl.
  - reflexivity.
  - rewrite (H x (or_introl eq_refl)). f_equal.
    apply IH. intros y Hy. apply H. now right.
Qed.


End RemoveActor.


Example removeActor_present :
  Store.actors (Store.removeActor "a1" one_actor) = []
  /\ selectedActorId (Store.ui (Store.removeActor "a1" one_actor)) = None.
Proof. split; reflexivity. Qed.

Example removeActor_absent : Store.removeActor "zz" one_actor = one_actor.
Proof. reflexivity. Qed.

(* ------------------------------------------------------------------------ *)
(** ** History manager *)

Section HistoryFacts.
Import Temporal.
Context {T : Type}.
Implicit Types (h : History T) (s : nat -> T).

Lemma limit_pos : (0 < limit)%nat.
Proof. unfold limit. lia. Qed.

Lemma evict_length (p : list T) :
  (List.length p <= S limit)%nat -> (List.length (evict p) <= limit)%nat.
Proof.
  intro H. unfold evict.
  destruct (Nat.ltb_spec limit (List.length p)) as [Hlt|Hge]; [|exact Hge].
  destruct p; simpl in *; lia.
Qed.

Lemma commit_bounded h (next : T) : bounded h -> bounded (commit next h).
Proof.
  unfold bounded, commit; simpl. intro H. rewrite Nat.add_0_r.
  apply evict_length. rewrite length_app; simpl. lia.
Qed.

Lemma undo_bounded h : bounded h -> bounded (undo h).
Proof.
  unfold bounded, undo. intro H.
  destruct (rev (past h)) as [|x older] eqn:E; [exact H|]. simpl.
  assert (Hlen : List.length (past h) = S (List.length older))
    by (rewrite <- length_rev, E; reflexivity).
  rewrite length_rev. lia.
Qed.

Lemma redo_bounded h : bounded h -> bounded (redo h).
Proof.
  unfold bounded, redo. intro H.
  destruct (future h) as [|x rest] eqn:E; [rewrite E; exact H|]. simpl in *.
  rewrite length_app; simpl. lia.
Qed.

Lemma run_bounded (trs : list (transition T)) h :
  bounded h -> bounded (run trs h).
Proof.
  revert h. induction trs as [|tr trs IH]; intros h H; simpl.
  - exact H.
  - apply IH. destruct tr; simpl;
      [apply commit_bounded | apply undo_bounded | apply redo_bounded];
      exact H.
Qed.

Lemma commit_below_capacity h (next : T) :
  (List.length (past h) < limit)%nat ->
  commit next h = mkHistory (past h ++ [present h]) next [].
Proof.
  intro H. unfold commit, evict.
  destruct (Nat.ltb_spec limit (List.length (past h ++ [present h])))
    as [Hlt|Hge]; [|reflexivity].
  rewrite length_app in Hlt; simpl in Hlt. lia.
Qed.

Lemma commit_at_capacity h (next : T) :
  List.length (past h) = limit ->
  commit next h = mkHistory (tl (past h) ++ [present h]) next [].
Proof.
  intro H. unfold commit, evict.
  destruct (Nat.ltb_spec limit (List.length (past h ++ [present h])))
    as [Hlt|Hge].
  - destruct (past h) as [|x p] eqn:E; [|reflexivity].
    pose proof limit_pos. simpl in H. lia.
  - rewrite length_app in Hge; simpl in Hge. lia.
Qed.

(** After [n] mutations from a fresh history, [past] holds the last
    [min n limit] earlier states. *)
Lemma mutate_shape s (n : nat) :
  mutate s n (init (s O))
  = mkHistory (map s (seq (n - limit) (Nat.min n limit))) (s n) [].
Proof.
  induction n as [|n IH].
  - reflexivity.
  - cbn [mutate]. rewrite IH.
    destruct (Nat.lt_ge_cases n limit) as [Hlt|Hge].
    + rewrite commit_below_capacity
        by (cbn [past]; rewrite length_map, length_seq; lia).
      cbn [past present]. f_equal.
      replace (n - limit)%nat with O by lia.
      replace (S n - limit)%nat with O by lia.
      replace (Nat.min n limit) with n by lia.
      replace (Nat.min (S n) limit) with (S n) by lia.
      rewrite seq_S, map_app. reflexivity.
    + rewrite commit_at_capacity
        by (cbn [past]; rewrite length_map, length_seq; lia).
      cbn [past present]. f_equal.
      replace (Nat.min n limit) with limit by lia.
      replace (Nat.min (S n) limit) with limit by lia.
      pose proof limit_pos as Hpos.
      destruct limit as [|m] eqn:El; [lia|].
      replace (S n - S m)%nat with (S (n - S m)) by lia.
      rewrite (seq_S m (S (n - S m))), map_app. cbn [seq map tl app].
      do 3 f_equal. lia.
Qed.

Lemma undo_empty_past h : past h = [] -> undo h = h.
Proof. intro H. unfold undo. rewrite H. reflexivity. Qed.

Lemma undo_n_empty_past (k : nat) h : past h = [] -> undo_n k h = h.
Proof.
  intro H. induction k as [|k IH]; simpl.
  - reflexivity.
  - rewrite undo_empty_past by exact H. exact IH.
Qed.

Lemma undo_n_add (j k : nat) h : undo_n (j + k) h = undo_n k (undo_n j h).
Proof.
  revert h. induction j as [|j IH]; intro h; simpl.
  - reflexivity.
  - apply IH.
Qed.

Lemma undo_snoc (p : list T) (x cur : T) (fut : list T) :
  undo (mkHistory (p ++ [x]) cur fut) = mkHistory p x (cur :: fut).
Proof.
  unfold undo. cbn [past present future].
  rewrite rev_unit, rev_involutive. reflexivity.
Qed.

(** Undoing [k] steps over a past that holds [s a], ..., [s (a + m - 1)]. *)
Lemma undo_n_shape s (a m k : nat) (fut : list T) :
  (k <= m)%nat ->
  exists fut',
    undo_n k (mkHistory (map s (seq a m)) (s (a + m)%nat) fut)
    = mkHistory (map s (seq a (m - k))) (s (a + m - k)%nat) fut'.
Proof.
  revert m fut. induction k as [|k IH]; intros m fut Hk; cbn [undo_n].
  - exists fut. rewrite !Nat.sub_0_r. reflexivity.
  - destruct m as [|m]; [lia|].
    rewrite seq_S, map_app. cbn [map]. rewrite undo_snoc.
    destruct (IH m (s (a + S m)%nat :: fut)) as [fut' E]; [lia|].
    exists fut'. rewrite E.
    replace (S m - S k)%nat with (m - k)%nat by lia.
    replace (a + S m - S k)%nat with (a + m - k)%nat by lia.
    reflexivity.
Qed.

End HistoryFacts.

Lemma NoDup_map_on {A B} (f : A -> B) (l : list A) :
  (forall x y, In x l -> In y l -> f x = f y -> x = y) ->
  NoDup l -> NoDup (map f l).
Proof.
  intros Hinj Hl. induction Hl as [|x l Hx Hl IH]; simpl; constructor.
  - intro Hin. apply in_map_iff in Hin. destruct Hin as (y & Hy & Hyl).
    apply Hx. rewrite <- (Hinj y x); simpl; auto.
  - apply IH. intros a b Ha Hb. apply Hinj; simpl; auto.
Qed.

(** C4. The history never holds more than 100 past snapshots: a tracked
    mutation pushes the previous present onto [past] and clears [future],
    and evicts the oldest past entry once the capacity of 100 is exceeded.
    After 150 distinct tracked mutations repeated [undo] reaches exactly the
    100 states before the present one, and the oldest 50 are out of reach. *)
Theorem history_bounded_by_limit (T : Type) (s : nat -> T) :
  (forall i j, (i <= 150)%nat -> (j <= 150)%nat -> s i = s j -> i = j) ->
  let h150 := Temporal.mutate s 150 (Temporal.init (s O)) in
  Temporal.limit = 100%nat
  /\ (forall (trs : list (Temporal.transition T)) (s0 : T),
         (List.length (Temporal.past (Temporal.run trs (Temporal.init s0)))
          <= 100)%nat)
  /\ (forall (h : Temporal.History T) (next : T),
         Temporal.present (Temporal.commit next h) = next
         /\ Temporal.future (Temporal.commit next h) = []
         /\ ((List.length (Temporal.past h) < 100)%nat ->
             Temporal.past (Temporal.commit next h)
             = Temporal.past h ++ [Temporal.present h])
         /\ (List.length (Temporal.past h) = 100%nat ->
             Temporal.past (Temporal.commit next h)
             = tl (Temporal.past h) ++ [Temporal.present h]))
  /\ Temporal.past h150 = map s (seq 50 100)
  /\ Temporal.present h150 = s 150%nat
  /\ (forall k, (k <= 100)%nat ->
                Temporal.present (Temporal.undo_n k h150) = s (150 - k)%nat)
  /\ (forall k, (100 <= k)%nat ->
                Temporal.undo_n k h150 = Temporal.undo_n 100 h150)
  /\ (forall k i, (i < 50)%nat ->
                  Temporal.present (Temporal.undo_n k h150) <> s i)
  /\ (forall st,
         (exists k, (1 <= k)%nat
                    /\ Temporal.present (Temporal.undo_n k h150) = st)
         <-> In st (map s (seq 50 100)))
  /\ NoDup (map s (seq 50 100)).
Proof.
  intros Hdistinct h150.
  assert (Hshape : h150
                   = Temporal.mkHistory (map s (seq 50 100)) (s 150%nat) []).
  { unfold h150. rewrite mutate_shape. reflexivity. }
  assert (Hundo : forall k, (k <= 100)%nat ->
            exists fut',
              Temporal.undo_n k h150
              = Temporal.mkHistory (map s (seq 50 (100 - k)))
                                   (s (150 - k)%nat) fut').
  { intros k Hk. rewrite Hshape.
    destruct (undo_n_shape s 50 100 k [] Hk) as [fut' E].
    exists fut'. exact E. }
  assert (Hstuck : forall k, (100 <= k)%nat ->
            Temporal.undo_n k h150 = Temporal.undo_n 100 h150).
  { intros k Hk. replace k with (100 + (k - 100))%nat by lia.
    rewrite undo_n_add. destruct (Hundo 100%nat (le_n _)) as [fut' E].
    rewrite E. apply undo_n_empty_past. reflexivity. }
  split; [reflexivity|]. split.
  { intros trs s0.
    pose proof (run_bounded trs (Temporal.init s0)) as Hb.
    unfold Temporal.bounded in Hb. cbn [Temporal.init Temporal.past Temporal.future List.length] in Hb.
    specialize (Hb (Nat.le_0_l _)). change Temporal.limit with 100%nat in Hb. lia. }
  split.
  { intros h next. split; [reflexivity|]. split; [reflexivity|]. split.
    - intro Hlt. rewrite commit_below_capacity by exact Hlt. reflexivity.
    - intro Heq. rewrite commit_at_capacity by exact Heq. reflexivity. }
  split; [rewrite Hshape; reflexivity|].
  split; [rewrite Hshape; reflexivity|].
  split.
  { intros k Hk. destruct (Hundo k Hk) as [fut' E]. rewrite E. reflexivity. }
  split; [exact Hstuck|].
  assert (Hpresent : forall k, exists i,
             (50 <= i <= 150)%nat /\ (1 <= k -> i < 150)%nat
             /\ Temporal.present (Temporal.undo_n k h150) = s i).
  { intro k. destruct (Nat.le_gt_cases k 100) as [Hk|Hk].
    - destruct (Hundo k Hk) as [fut' E]. exists (150 - k)%nat.
      rewrite E. repeat split; lia.
    - destruct (Hundo 100%nat (le_n _)) as [fut' E]. exists 50%nat.
      rewrite Hstuck, E by lia. repeat split; lia. }
  split.
  { intros k i Hi Heq. destruct (Hpresent k) as (i' & Hi' & _ & E).
    rewrite E in Heq. apply Hdistinct in Heq; lia. }
  split.
  { intro st. split.
    - intros (k & Hk & <-). destruct (Hpresent k) as (i & Hi & Hlt & E).
      rewrite E. apply in_map, in_seq. specialize (Hlt Hk). lia.
    - intro Hin. apply in_map_iff in Hin. destruct Hin as (i & <- & Hi).
      apply in_seq in Hi. exists (150 - i)%nat. split; [lia|].
      destruct (Hundo (150 - i)%nat ltac:(lia)) as [fut' E]. rewrite E.
      cbn [Temporal.present]. f_equal. lia. }
  apply NoDup_map_on; [|apply seq_NoDup].
  intros i j Hi Hj. apply in_seq in Hi, Hj. apply Hdistinct; lia.
Qed.

Lemma snapshot_injective (i j : nat) : snapshot i = snapshot j -> i = j.
Proof.
  intro H. apply (f_equal Temporal.t_actors) in H. simpl in H.
  apply (f_equal (@List.length Actor)) in H.
  now rewrite !repeat_length in H.
Qed.

Lemma history_bounded_by_limit_witness :
  (forall i j, (i <= 150)%nat -> (j <= 150)%nat ->
               snapshot i = snapshot j -> i = j)
  /\ Temporal.past (Temporal.mutate snapshot 150 (Temporal.init (snapshot 0)))
     = map snapshot (seq 50 100).
Proof.
  split.
  - intros i j _ _. apply snapshot_injective.
  - exact (proj1 (proj2 (proj2 (proj2
             (history_bounded_by_limit Temporal.Tracked snapshot
                (fun i j _ _ => snapshot_injective i j)))))).
Defined.

Example undo_redo_undo_roundtrip :
  let h := Temporal.mutate snapshot 3 (Temporal.init (snapshot 0)) in
  Temporal.undo (Temporal.redo (Temporal.undo h)) = Temporal.undo h.
Proof. reflexivity. Qed.

(* ------------------------------------------------------------------------ *)
(** ** Polygon hit test *)

Section RayCasting.
Import Canvas.

Lemma crossing_divisor (y yi yj : Q) :
  crossing y yi yj = true -> ~ yj - yi == 0.
Proof.
  unfold crossing. intros H Hz.
  assert (E : yi == yj) by lra.
  apply negb_true_iff, eqb_false_iff in H. apply H.
  unfold Qlt_bool. now rewrite E.
Qed.

Lemma edge_test_total (x y xi yi xj yj : Q) :
  exists hit, edge_test x y xi yi xj yj = Some hit.
Proof.
  unfold edge_test. destruct (crossing y yi yj) eqn:E.
  - apply crossing_divisor in E. unfold checked_div.
    apply Qeq_bool_false_iff in E. rewrite E. eauto.
  - eauto.
Qed.

Lemma ray_loop_total (points : list (Q * Q)) (x y : Q)
      (remaining i j : nat) (inside : bool) :
  exists r, ray_loop points x y remaining i j inside = Some r.
Proof.
  revert i j inside.
  induction remaining as [|n IH]; intros i j inside; simpl.
  - eauto.
  - destruct (nth i points (0, 0)) as [xi yi].
    destruct (nth j points (0, 0)) as [xj yj].
    destruct (edge_test_total x y xi yi xj yj) as [hit E]. rewrite E.
    apply IH.
Qed.
End RayCasting.

(** C9. In the ray-casting loop of [isPointInPolygon], whenever the crossing
    condition [(yi > y) !== (yj > y)] holds for an edge the divisor
    [yj - yi] is not zero; so the division is guarded, no edge evaluation
    divides by zero, and the hit test returns a result for every polygon,
    rectangle or point list, and every query point. *)
Theorem isPointInPolygon_division_guarded (x y : Q) (polygon : Polygon) :
  (forall yi yj, Canvas.crossing y yi yj = true -> ~ yj - yi == 0)
  /\ (forall xi yi xj yj,
         exists hit, Canvas.edge_test x y xi yi xj yj = Some hit)
  /\ (exists inside, Canvas.isPointInPolygon x y polygon = Some inside).
Proof.
  split; [apply crossing_divisor|].
  split; [apply edge_test_total|].
  destruct polygon as [rx ry w h | points]; simpl.
  - eauto.
  - apply ray_loop_total.
Qed.

Example square_hits :
  Canvas.isPointInPolygon 5 5 square = Some true
  /\ Canvas.isPointInPolygon 15 5 square = Some false
  /\ Canvas.isPointInPolygon 10 10 square = Some false.
Proof. repeat split; reflexivity. Qed.

(** A horizontal edge never meets the crossing condition, so its zero
    divisor is never used. *)
Example horizontal_edge_skipped :
  Canvas.edge_test 1 0 0 0 10 0 = Some false
  /\ checked_div ((10 - 0) * (0 - 0)) (0 - 0) = None.
Proof. split; reflexivity. Qed.

(* ------------------------------------------------------------------------ *)
(** ** Project-file migration *)

Section MigrationFacts.
Import Migration.
Local Open Scope string_scope.

Lemma migrateActor_object (old_fields : list (string * json)) :
  exists new,
    migrateActor (JObj old_fields) = Ok new
    /\ actor_defaults (JObj old_fields) new.
Proof.
  unfold migrateActor; simpl. eexists. split; [reflexivity|].
  exists old_fields. do 3 eexists.
  split; [reflexivity|]. split; [reflexivity|].
  repeat split.
  - intros ->. reflexivity.
  - intros ks ->. reflexivity.
  - intros ->. reflexivity.
  - intros [-> | ->]; reflexivity.
  - intros sh ->. reflexivity.
Qed.

Lemma traverse_migrateActor (items : list json) :
  Forall is_object items ->
  exists news,
    traverse migrateActor items = Ok news
    /\ Forall2 actor_defaults items news.
Proof.
  induction 1 as [|a items Ha _ IH].
  - exists []. split; [reflexivity | constructor].
  - destruct a as [ | | | | | |old_fields]; try contradiction.
    destruct (migrateActor_object old_fields) as (new & E & Hnew).
    destruct IH as (news & Et & Hnews).
    exists (new :: news). split.
    + cbn [traverse]. rewrite E. cbn [bind]. rewrite Et. reflexivity.
    + constructor; assumption.
Qed.

Lemma legacy_version_test (fields : list (string * json)) :
  legacy_version fields ->
  negb (truthy (lookup "version" fields)) || is_one (lookup "version" fields)
  = true.
Proof.
  intros [-> | (n & -> & Hn)]; [reflexivity|].
  simpl. apply Qeq_bool_iff in Hn. rewrite Hn. apply orb_true_r.
Qed.
End MigrationFacts.

(** C5. Migration is idempotent: migrating the result of a migration gives
    that result again, for every payload; on a payload whose version is 2
    the migration is the identity. *)
Theorem migrateGrisFile_idempotent (x : Migration.json) :
  Migration.bind (Migration.migrateGrisFile x) Migration.migrateGrisFile
  = Migration.migrateGrisFile x
  /\ (forall v,
         Migration.get x "version" = Migration.Ok (Migration.JNum v) ->
         v == 2 ->
         Migration.migrateGrisFile x = Migration.Ok x).
Proof.
  split.
  - unfold Migration.migrateGrisFile at 1 3.
    destruct (Migration.get x "version") as [version|msg] eqn:Ev;
      [|reflexivity].
    cbn [Migration.bind].
    destruct (negb (Migration.truthy version) || Migration.is_one version)
      eqn:Etest.
    + destruct (Migration.get x "project") as [p|]; [|reflexivity].
      destruct (Migration.get x "backgrounds") as [b|]; [|reflexivity].
      destruct (Migration.get x "actors") as [a|]; [|reflexivity].
      cbn [Migration.bind].
      destruct (Migration.array_map Migration.migrateActor
                  (Migration.or_else a (Migration.JArr []))) as [new|];
        reflexivity.
    + cbn [Migration.bind]. unfold Migration.migrateGrisFile.
      rewrite Ev. cbn [Migration.bind]. rewrite Etest. reflexivity.
  - intros v Ev Hv. unfold Migration.migrateGrisFile. rewrite Ev.
    cbn [Migration.bind Migration.truthy Migration.is_one].
    assert (E0 : Qeq_bool v 0 = false)
      by (apply Qeq_bool_false_iff; rewrite Hv; discriminate).
    assert (E1 : Qeq_bool v 1 = false)
      by (apply Qeq_bool_false_iff; rewrite Hv; discriminate).
    rewrite E0, E1. reflexivity.
Qed.

Example migrate_legacy_file :
  Migration.migrateGrisFile legacy_file
  = Migration.Ok
      (Migration.JObj
         [ ("version", Migration.JNum 2);
           ("project", Migration.JObj [("name", Migration.JStr "My Show")]);
           ("backgrounds", Migration.JArr []);
           ("actors",
            Migration.JArr
              [ Migration.JObj
                  [ ("id", Migration.JStr "a1");
                    ("label", Migration.JStr "A");
                    ("shapes",
                     Migration.JArr
                       [Migration.JObj [("offColor", Migration.JStr "#000000")]]);
                    ("keyframes", Migration.JArr []);
                    ("interpolation", Migration.JStr "linear") ];
                Migration.JObj
                  [ ("id", Migration.JStr "a2");
                    ("label", Migration.JStr "B");
                    ("shapes", Migration.JArr []);
                    ("keyframes", Migration.JArr []);
                    ("interpolation", Migration.JStr "step") ] ]) ])%string.
Proof. reflexivity. Qed.

(** A payload that cannot be migrated fails both times. *)
Example migrate_null_throws :
  Migration.migrateGrisFile Migration.JNull
  = Migration.TypeError "cannot read properties of null"%string
  /\ Migration.migrateGrisFile
       (Migration.JObj [("actors", Migration.JNum 7)])%string
     = Migration.TypeError "map is not a function"%string.
Proof. split; reflexivity. Qed.

(** C10. On a payload object whose version field is absent or equals 1 (and
    whose actors, if any, are objects) the migration returns a file stamped
    with version 2 in which a missing actors array and a missing backgrounds
    array are empty lists, an actor's missing keyframes are the empty list,
    its missing interpolation mode is "step", and its legacy shape becomes
    [shapes = [shape]], or [[]] when the shape is null or missing. *)
Theorem migrateGrisFile_fills_defaults (fields : list (string * Migration.json)) :
  Migration.legacy_version fields ->
  Migration.actors_well_formed fields ->
  exists new_backgrounds new_actors,
    Migration.migrateGrisFile (Migration.JObj fields)
    = Migration.Ok
        (Migration.JObj
           [ ("version", Migration.JNum 2);
             ("project", Migration.lookup "project" fields);
             ("backgrounds", new_backgrounds);
             ("actors", Migration.JArr new_actors) ])%string
    /\ (Migration.lookup "backgrounds" fields = Migration.JUndefined ->
        new_backgrounds = Migration.JArr [])
    /\ (forall bs, Migration.lookup "backgrounds" fields = Migration.JArr bs ->
                   new_backgrounds = Migration.JArr bs)
    /\ (Migration.lookup "actors" fields = Migration.JUndefined ->
        new_actors = [])
    /\ (forall items,
           Migration.lookup "actors" fields = Migration.JArr items ->
           Forall2 Migration.actor_defaults items new_actors).
Proof.
  intros Hv Ha. unfold Migration.migrateGrisFile.
  cbn [Migration.get Migration.bind]. rewrite (legacy_version_test _ Hv).
  destruct Ha as [Ha | (items & Ha & Hitems)].
  - exists (Migration.or_else (Migration.lookup "backgrounds" fields)
                               (Migration.JArr [])), [].
    rewrite Ha. split; [reflexivity|].
    split; [intros ->; reflexivity|].
    split; [intros bs ->; reflexivity|].
    split; [reflexivity|]. intros items H. discriminate.
  - destruct (traverse_migrateActor items Hitems) as (news & Et & Hnews).
    exists (Migration.or_else (Migration.lookup "backgrounds" fields)
                               (Migration.JArr [])), news.
    rewrite Ha. cbn [Migration.or_else Migration.truthy Migration.array_map].
    rewrite Et. cbn [Migration.bind].
    split; [reflexivity|].
    split; [intros ->; reflexivity|].
    split; [intros bs ->; reflexivity|].
    split; [intro H; discriminate|].
    intros items' H. inversion H; subst. exact Hnews.
Qed.

Lemma legacy_file_version : Migration.legacy_version legacy_fields.
Proof. right. exists 1. split; reflexivity. Qed.

Lemma legacy_file_actors : Migration.actors_well_formed legacy_fields.
Proof.
  right. eexists. split; [reflexivity|]. repeat constructor.
Qed.

Lemma migrateGrisFile_fills_defaults_witness :
  Migration.legacy_version legacy_fields
  /\ Migration.actors_well_formed legacy_fields
  /\ exists new_backgrounds new_actors,
      Migration.migrateGrisFile (Migration.JObj legacy_fields)
      = Migration.Ok
          (Migration.JObj
             [ ("version", Migration.JNum 2);
               ("project", Migration.lookup "project" legacy_fields);
               ("backgrounds", new_backgrounds);
               ("actors", Migration.JArr new_actors) ])%string.
Proof.
  split; [exact legacy_file_version|]. split; [exact legacy_file_actors|].
  destruct (migrateGrisFile_fills_defaults legacy_fields
              legacy_file_version legacy_file_actors)
    as (bs & acts & E & _).
  exists bs, acts. exact E.
Defined.

(* ------------------------------------------------------------------------ *)
(** ** Cue sampler *)

Section Rounding.
Import Toolbar.


End Rounding.

Lemma StronglySorted_weaken {A} (R R' : A -> A -> Prop) (l : list A) :
  (forall a b, R a b -> R' a b) -> StronglySorted R l -> StronglySorted R' l.
Proof.
  intros HR. induction 1 as [|x l Hs IH Hx]; constructor.
  - exact IH.
  - rewrite Forall_forall in *. auto.
Qed.

Section SampleLoop.
Import Toolbar.
Variables (acts : list Actor) (dur tickRate : Q).

(** More fuel does not change what the loop returns. *)
Lemma sample_loop_fuel_irrelevant (fuel fuel' : nat) (t : Q)
      (cues cues' : list ExportedCue) :
  sample_loop fuel acts dur tickRate t = Some cues ->
  sample_loop fuel' acts dur tickRate t = Some cues' ->
  cues = cues'.
Proof.
  revert fuel' t cues cues'.
  induction fuel as [|fuel IH]; intros fuel' t cues cues' H H';
    destruct fuel' as [|fuel']; simpl in H, H';
    destruct (Qle_bool t dur); try congruence.
  destruct (sample_loop fuel acts dur tickRate (t + tickRate)) as [r|] eqn:E;
    [|discriminate].
  destruct (sample_loop fuel' acts dur tickRate (t + tickRate)) as [r'|] eqn:E';
    [|discriminate].
  rewrite (IH _ _ _ _ E E') in H. congruence.
Qed.

(** With a positive tick the loop ends. *)
Lemma sample_loop_terminates (fuel : nat) (t : Q) :
  0 < tickRate ->
  dur - t < inject_Z (Z.of_nat fuel) * tickRate ->
  exists cues, sample_loop fuel acts dur tickRate t = Some cues.
Proof.
  intro Htick. revert t. induction fuel as [|fuel IH]; intros t Hfuel.
  - simpl in *. destruct (Qle_bool t dur) eqn:E; [|eauto].
    qbool. exfalso. change (inject_Z 0) with 0 in Hfuel. lra.
  - cbn [sample_loop]. destruct (Qle_bool t dur) eqn:E; [|eauto].
    destruct (IH (t + tickRate)) as [cues Hc].
    + rewrite Nat2Z.inj_succ in Hfuel. unfold Z.succ in Hfuel.
      rewrite inject_Z_plus in Hfuel. change (inject_Z 1) with 1 in Hfuel.
      lra.
    + rewrite Hc. eauto.
Qed.

Lemma enough_fuel :
  0 < tickRate ->
  exists fuel : nat, dur - 0 < inject_Z (Z.of_nat fuel) * tickRate.
Proof.
  intro Htick.
  exists (Z.to_nat (Qfloor (dur / tickRate) + 1)).
  pose proof (Qlt_floor (dur / tickRate)) as Hfl.
  assert (Hge : inject_Z (Qfloor (dur / tickRate) + 1)
                <= inject_Z (Z.of_nat (Z.to_nat (Qfloor (dur / tickRate) + 1)))).
  { rewrite <- Zle_Qle. lia. }
  assert (Hd : dur == dur / tickRate * tickRate) by (field; lra).
  assert (Hlt : dur / tickRate * tickRate
                < inject_Z (Z.of_nat (Z.to_nat (Qfloor (dur / tickRate) + 1)))
                  * tickRate).
  { apply Qmult_lt_compat_r; [exact Htick|].
    eapply Qlt_le_trans; [exact Hfl | exact Hge]. }
  lra.
Qed.

(** Every cue of the sampled branch is a rounded sample. *)
Lemma sample_loop_cues (fuel : nat) (t : Q) (cues : list ExportedCue) :
  sample_loop fuel acts dur tickRate t = Some cues ->
  forall c, In c cues ->
    exists actor t',
      In actor acts
      /\ cue_t c = round3 t'
      /\ cue_id c = label actor
      /\ cue_state c = round3 (getActorValueAtTime actor t').
Proof.
  revert t cues. induction fuel as [|fuel IH]; intros t cues H c Hc;
    simpl in H; destruct (Qle_bool t dur); try discriminate.
  - inversion H; subst. destruct Hc.
  - destruct (sample_loop fuel acts dur tickRate (t + tickRate)) as [r|] eqn:E;
      [|discriminate].
    inversion H; subst. apply in_app_or in Hc. destruct Hc as [Hc | Hc].
    + unfold tick_cues in Hc. apply in_map_iff in Hc.
      destruct Hc as (actor & <- & Hin). exists actor, t. simpl. auto.
    + exact (IH _ _ E c Hc).
  - inversion H; subst. destruct Hc.
Qed.
End SampleLoop.

Section Collation.
Import Toolbar.

Lemma string_compare_trans (a b c : string) :
  String.compare a b <> Gt -> String.compare b c <> Gt ->
  String.compare a c <> Gt.
Proof.
  revert b c. induction a as [|x a IH]; intros [|y b] [|z c]; simpl;
    try congruence.
  unfold Ascii.compare.
  destruct (N.compare_spec (N_of_ascii x) (N_of_ascii y)) as [Exy|Hxy|Hxy];
    destruct (N.compare_spec (N_of_ascii y) (N_of_ascii z)) as [Eyz|Hyz|Hyz];
    destruct (N.compare_spec (N_of_ascii x) (N_of_ascii z)) as [Exz|Hxz|Hxz];
    try congruence; try lia.
  apply IH.
Qed.

Lemma codeunit_compare_le (a b : string) :
  codeunit_compare a b <= 0 <-> String.compare a b <> Gt.
Proof.
  unfold codeunit_compare. destruct (String.compare a b); split;
    intro H; try congruence; try lra; try discriminate.
Qed.

Lemma codeunit_compare_total (a b : string) :
  0 < codeunit_compare a b -> codeunit_compare b a <= 0.
Proof.
  unfold codeunit_compare. rewrite (String.compare_antisym b a).
  destruct (String.compare a b); simpl; lra.
Qed.

Lemma codeunit_compare_trans (a b c : string) :
  codeunit_compare a b <= 0 -> codeunit_compare b c <= 0 ->
  codeunit_compare a c <= 0.
Proof.
  rewrite !codeunit_compare_le. apply string_compare_trans.
Qed.

Lemma string_compare_lt_trans (a b c : string) :
  String.compare a b = Lt -> String.compare b c = Lt ->
  String.compare a c = Lt.
Proof.
  intros Hab Hbc.
  assert (Hac : String.compare a c <> Gt)
    by (apply (string_compare_trans a b c); congruence).
  destruct (String.compare a c) eqn:E; [|reflexivity|congruence].
  apply String.compare_eq_iff in E. subst c.
  rewrite String.compare_antisym, Hab in Hbc. discriminate.
Qed.

Lemma letter_collation_le (a b : string) :
  letter_collation a b <= 0 <->
  String.compare (string_map to_lower a) (string_map to_lower b) = Lt
  \/ (String.compare (string_map to_lower a) (string_map to_lower b) = Eq
      /\ String.compare (string_map swap_case a) (string_map swap_case b)
         <> Gt).
Proof.
  unfold letter_collation.
  destruct (String.compare (string_map to_lower a) (string_map to_lower b));
    destruct (String.compare (string_map swap_case a)
                             (string_map swap_case b));
    cbn [sign]; split; intro H;
    try lra; try (left; reflexivity); try (right; split; congruence);
    destruct H as [H | [H H']]; congruence.
Qed.

Lemma letter_collation_total (a b : string) :
  0 < letter_collation a b -> letter_collation b a <= 0.
Proof.
  unfold letter_collation.
  rewrite (String.compare_antisym (string_map to_lower b)),
          (String.compare_antisym (string_map swap_case b)).
  destruct (String.compare (string_map to_lower a) (string_map to_lower b));
    destruct (String.compare (string_map swap_case a)
                             (string_map swap_case b));
    cbn [sign CompOpp]; lra.
Qed.

Lemma letter_collation_trans (a b c : string) :
  letter_collation a b <= 0 -> letter_collation b c <= 0 ->
  letter_collation a c <= 0.
Proof.
  rewrite !letter_collation_le.
  intros [Hab | [Hab Tab]] [Hbc | [Hbc Tbc]].
  - left. exact (string_compare_lt_trans _ _ _ Hab Hbc).
  - left. apply String.compare_eq_iff in Hbc. rewrite <- Hbc. exact Hab.
  - left. apply String.compare_eq_iff in Hab. rewrite Hab. exact Hbc.
  - right. split.
    + apply String.compare_eq_iff in Hab. rewrite Hab. exact Hbc.
    + exact (string_compare_trans _ _ _ Tab Tbc).
Qed.
End Collation.

Section CueOrder.
Import Toolbar.
Variable localeCompare : string -> string -> Q.

Lemma cue_compare_le (a b : ExportedCue) :
  cmp_le (cue_compare localeCompare) a b <-> cue_le localeCompare a b.
Proof.
  unfold cmp_le, cue_compare, cue_le, num_or.
  destruct (Qeq_bool (cue_t a - cue_t b) 0) eqn:E; qbool.
  - split.
    + intro H. right. split; [lra | exact H].
    + intros [H | [_ H]]; [lra | exact H].
  - split.
    + intro H. left.
      destruct (Qlt_le_dec (cue_t a) (cue_t b)) as [Hlt|Hge]; [exact Hlt|].
      exfalso. apply E. lra.
    + intros [H | [H _]]; [lra | exfalso; apply E; lra].
Qed.

Hypothesis lc_total :
  forall a b, 0 < localeCompare a b -> localeCompare b a <= 0.
Hypothesis lc_trans :
  forall a b c,
    localeCompare a b <= 0 -> localeCompare b c <= 0 -> localeCompare a c <= 0.

Lemma cue_compare_total (a b : ExportedCue) :
  0 < cue_compare localeCompare a b -> cue_compare localeCompare b a <= 0.
Proof.
  unfold cue_compare, num_or.
  destruct (Qeq_bool (cue_t a - cue_t b) 0) eqn:E;
    destruct (Qeq_bool (cue_t b - cue_t a) 0) eqn:E'; qbool;
    intro H; try lra.
  apply lc_total. exact H.
Qed.

Lemma cue_le_trans (a b c : ExportedCue) :
  cue_le localeCompare a b -> cue_le localeCompare b c ->
  cue_le localeCompare a c.
Proof.
  unfold cue_le. intros [H1 | [H1 L1]] [H2 | [H2 L2]].
  - left. lra.
  - left. lra.
  - left. lra.
  - right. split; [lra | exact (lc_trans _ _ _ L1 L2)].
Qed.

Lemma sorted_cues (l : list ExportedCue) :
  StronglySorted (cue_le localeCompare)
                 (array_sort (cue_compare localeCompare) l).
Proof.
  apply StronglySorted_weaken with (R := cmp_le (cue_compare localeCompare)).
  - intros a b. apply cue_compare_le.
  - apply array_sort_sorted.
    + exact cue_compare_total.
    + intros a b c. rewrite !cue_compare_le. apply cue_le_trans.
Qed.
End CueOrder.

(** C7, as stated, fails on the secondary key: the comparator orders ids by
    [localeCompare], the collation of the host, which is not the
    lexicographic order of the ids.  Two actors "B" and "a", already in
    lexicographic order, are exported as "a", "B". *)
Lemma generateCues_ids_not_lexicographic :
  Toolbar.generateCues Toolbar.letter_collation 0 [actor_B; actor_a] no_audio
                       (1 # 10)
  = Some [mkCue 0 "a" 0; mkCue 0 "B" 0]
  /\ ~ StronglySorted Toolbar.cue_lexicographic_le
         [mkCue 0 "a" 0; mkCue 0 "B" 0].
Proof.
  split; [reflexivity|].
  intro H. inversion H as [|c l _ Hall]; subst.
  inversion Hall as [|c' l' Hle _]; subst.
  unfold Toolbar.cue_lexicographic_le, Toolbar.cue_le in Hle.
  cbn [cue_t cue_id] in Hle.
  destruct Hle as [Hlt | [_ Hid]].
  - lra.
  - vm_compute in Hid. apply Hid. reflexivity.
Qed.

(** C7, amended.  For every actor list, duration and tick rate the cue list
    that [generateCues] returns holds exactly the cues that were emitted,
    sorted by ascending [t] and, among cues of equal [t], by [id] in the order
    of [localeCompare] (any collation that is a consistent comparator); the
    list does not depend on the run; and a list is returned whenever the
    duration is zero or the tick rate is positive. *)
Theorem generateCues_sorted
        (localeCompare : string -> string -> Q)
        (lc_total : forall a b, 0 < localeCompare a b -> localeCompare b a <= 0)
        (lc_trans : forall a b c,
            localeCompare a b <= 0 -> localeCompare b c <= 0 ->
            localeCompare a c <= 0)
        (acts : list Actor) (pb : PlaybackState) (tickRate : Q) :
  (forall fuel cues,
      Toolbar.generateCues localeCompare fuel acts pb tickRate = Some cues ->
      StronglySorted (Toolbar.cue_le localeCompare) cues
      /\ exists emitted,
          Toolbar.collect_cues fuel acts pb tickRate = Some emitted
          /\ Permutation emitted cues)
  /\ (forall fuel fuel' cues cues',
         Toolbar.generateCues localeCompare fuel acts pb tickRate = Some cues ->
         Toolbar.generateCues localeCompare fuel' acts pb tickRate = Some cues' ->
         cues = cues')
  /\ (duration pb == 0 \/ 0 < tickRate ->
      exists fuel cues,
        Toolbar.generateCues localeCompare fuel acts pb tickRate = Some cues).
Proof.
  split; [|split].
  - intros fuel cues H. unfold Toolbar.generateCues in H.
    destruct (Toolbar.collect_cues fuel acts pb tickRate) as [raw|];
      [|discriminate].
    cbn [option_map] in H. injection H as <-. split.
    + apply sorted_cues; assumption.
    + exists raw. split; [reflexivity|].
      symmetry. apply array_sort_perm.
  - unfold Toolbar.generateCues, Toolbar.collect_cues.
    intros fuel fuel' cues cues' H H'.
    destruct (Qeq_bool (num_or (duration pb) 0) 0); [congruence|].
    destruct (Toolbar.sample_loop fuel acts (num_or (duration pb) 0) tickRate 0)
      as [raw|] eqn:E; [|discriminate].
    destruct (Toolbar.sample_loop fuel' acts (num_or (duration pb) 0) tickRate 0)
      as [raw'|] eqn:E'; [|discriminate].
    rewrite (sample_loop_fuel_irrelevant _ _ _ _ _ _ _ _ E E') in H.
    simpl in H, H'. congruence.
  - unfold Toolbar.generateCues, Toolbar.collect_cues.
    intros [Hzero | Htick].
    + exists O. eexists.
      assert (E : Qeq_bool (num_or (duration pb) 0) 0 = true).
      { unfold num_or. apply Qeq_bool_iff in Hzero. rewrite Hzero. reflexivity. }
      rewrite E. reflexivity.
    + destruct (Qeq_bool (num_or (duration pb) 0) 0).
      * exists O. eexists. reflexivity.
      * destruct (enough_fuel (num_or (duration pb) 0) tickRate Htick)
          as [fuel Hfuel].
        destruct (sample_loop_terminates acts _ _ fuel 0 Htick Hfuel)
          as [raw E].
        exists fuel. rewrite E. eexists. reflexivity.
Qed.

(** Three actors "B", "a", "A" sampled at 0, 0.5 and 1: at each of the three
    times the tie is decided by the ids, in the order "a", "A", "B". *)
Lemma generateCues_sorted_witness :
  exists cues,
    Toolbar.generateCues Toolbar.letter_collation 5
                         [actor_B; actor_a; actor_A] one_second (1 # 2)
    = Some cues
    /\ StronglySorted (Toolbar.cue_le Toolbar.letter_collation) cues
    /\ map cue_id cues = ["a"; "A"; "B"; "a"; "A"; "B"; "a"; "A"; "B"]%string.
Proof.
  destruct (Toolbar.generateCues Toolbar.letter_collation 5
                                 [actor_B; actor_a; actor_A]
                                 one_second (1 # 2)) as [cues|] eqn:E.
  - exists cues. split; [reflexivity|]. split.
    + exact (proj1 (proj1 (generateCues_sorted Toolbar.letter_collation
                             letter_collation_total letter_collation_trans
                             [actor_B; actor_a; actor_A] one_second (1 # 2))
                          5%nat cues E)).
    + vm_compute in E. injection E as <-. reflexivity.
  - vm_compute in E. discriminate.
Defined.

(** The example of the design document: one actor "A", duration 1, tick 0.5. *)
Example sampled_A_cues :
  match sampled_A with
  | Some cues =>
      Forall2 Toolbar.cue_eq cues
              [mkCue 0 "A" 0; mkCue (1 # 2) "A" (1 # 2); mkCue 1 "A" 1]
  | None => False
  end.
Proof. vm_compute. repeat constructor. Qed.

(** With a tick rate of zero and audio loaded the loop never ends. *)
Example zero_tick_never_ends (fuel : nat) :
  Toolbar.generateCues Toolbar.codeunit_compare fuel [] one_second 0 = None.
Proof.
  unfold Toolbar.generateCues, Toolbar.collect_cues. simpl.
  assert (H : forall t, t == 0 ->
            Toolbar.sample_loop fuel [] 1 0 t = None).
  { induction fuel as [|fuel IH]; intros t Ht; simpl;
      assert (E : Qle_bool t 1 = true) by (apply Qle_bool_iff; lra);
      rewrite E; [reflexivity|].
    rewrite IH by lra. reflexivity. }
  rewrite H by reflexivity. reflexivity.
Qed.




(* ======================================================================== *)
(** * Further properties of the code *)

(** ** Interpolation engine: what the value is, case by case *)

Section InterpolationCases.

Lemma last_opt_snoc {A} (l : list A) (x : A) (d : option A) :
  last_opt (l ++ [x]) d = Some x.
Proof.
  revert d. induction l as [|y l IH]; intro d; simpl.
  - reflexivity.
  - apply IH.
Qed.

Lemma filter_none {A} (p : A -> bool) (l : list A) :
  (forall x, In x l -> p x = false) -> filter p l = [].
Proof.
  induction l as [|x l IH]; intro H; simpl.
  - reflexivity.
  - rewrite (H x (or_introl eq_refl)). apply IH.
    intros y Hy. apply H. now right.
Qed.

Lemma sorted_unique_app (l1 l2 : list KeyFrame) (x : KeyFrame) :
  sorted_unique (l1 ++ x :: l2) ->
  (forall k, In k l1 -> time k < time x)
  /\ (forall k, In k l2 -> time x < time k).
Proof.
  unfold sorted_unique. induction l1 as [|y l1 IH]; simpl; intro H.
  - inversion H as [|? ? _ Hx]; subst. rewrite Forall_forall in Hx.
    split; [intros k []|exact Hx].
  - inversion H as [|? ? Hs Hy]; subst. rewrite Forall_forall in Hy.
    destruct (IH Hs) as [H1 H2]. split; [|exact H2].
    intros k [<- | Hk]; [|exact (H1 k Hk)].
    apply Hy, in_or_app. right. left. reflexivity.
Qed.

(** The loop's result when the list splits around the query time. *)
Lemma surrounding_split (l1 mid l2 : list KeyFrame) (t : Q) :
  (forall k, In k l1 -> time k < t) ->
  (forall k, In k l2 -> t < time k) ->
  (forall k, In k mid -> time k == t) ->
  surrounding (l1 ++ mid ++ l2) t None None
  = (last_opt (l1 ++ mid) None, hd_error (mid ++ l2)).
Proof.
  intros H1 H2 Hm. rewrite surrounding_eq, !filter_app.
  rewrite (filter_all (fun k => Qle_bool (time k) t) l1)
    by (intros k Hk; apply Qle_bool_iff, Qlt_le_weak, H1, Hk).
  rewrite (filter_all (fun k => Qle_bool (time k) t) mid)
    by (intros k Hk; apply Qle_bool_iff; rewrite (Hm k Hk); apply Qle_refl).
  rewrite (filter_none (fun k => Qle_bool (time k) t) l2)
    by (intros k Hk; apply Qle_bool_false_iff, H2, Hk).
  rewrite (filter_none (fun k => Qle_bool t (time k)) l1)
    by (intros k Hk; apply Qle_bool_false_iff, H1, Hk).
  rewrite (filter_all (fun k => Qle_bool t (time k)) mid)
    by (intros k Hk; apply Qle_bool_iff; rewrite (Hm k Hk); apply Qle_refl).
  rewrite (filter_all (fun k => Qle_bool t (time k)) l2)
    by (intros k Hk; apply Qle_bool_iff, Qlt_le_weak, H2, Hk).
  rewrite app_nil_r, app_assoc. reflexivity.
Qed.

Lemma value_of_keyframes (a : Actor) (kfs : list KeyFrame) (t : Q) :
  keyframes a = kfs ->
  getActorValueAtTime a t
  = getActorValueAtTime (Store.with_keyframes a kfs) t.
Proof. intros <-. destruct a; reflexivity. Qed.

(** At the exact time of a keyframe of a sorted list the loop returns that
    keyframe twice. *)
Lemma surrounding_at_keyframe (kfs : list KeyFrame) (k : KeyFrame) (t : Q) :
  sorted_unique kfs -> In k kfs -> t == time k ->
  surrounding kfs t None None = (Some k, Some k).
Proof.
  intros Hs Hin Ht.
  destruct (in_split _ _ Hin) as (l1 & l2 & E). subst kfs.
  destruct (sorted_unique_app _ _ _ Hs) as [H1 H2].
  change (l1 ++ k :: l2) with (l1 ++ [k] ++ l2).
  rewrite (surrounding_split l1 [k] l2 t).
  - rewrite last_opt_snoc. reflexivity.
  - intros x Hx. rewrite Ht. apply H1, Hx.
  - intros x Hx. rewrite Ht. apply H2, Hx.
  - intros x [<- | []]. symmetry. exact Ht.
Qed.

Lemma value_same_pair (actor : Actor) (k : KeyFrame) (t : Q) :
  surrounding (keyframes actor) t None None = (Some k, Some k) ->
  getActorValueAtTime actor t = value k.
Proof.
  intro E. unfold getActorValueAtTime. rewrite E, Qeq_bool_refl.
  destruct (keyframes actor); [discriminate | reflexivity].
Qed.

End InterpolationCases.

(** X1.  On a sorted list, the value at the exact time of a keyframe is
    that keyframe's value, in step and in linear mode. *)
Theorem value_at_keyframe_time (actor : Actor) (k : KeyFrame) (t : Q) :
  sorted_unique (keyframes actor) ->
  In k (keyframes actor) ->
  t == time k ->
  getActorValueAtTime actor t = value k.
Proof.
  intros Hs Hin Ht. apply value_same_pair.
  apply surrounding_at_keyframe; assumption.
Qed.

Lemma value_at_keyframe_time_witness :
  sorted_unique (keyframes ramp)
  /\ In (mkKeyFrame 10 1) (keyframes ramp)
  /\ getActorValueAtTime ramp (20 # 2) = 1.
Proof.
  split; [exact ramp_sorted|]. split; [simpl; auto|].
  apply (value_at_keyframe_time ramp (mkKeyFrame 10 1) (20 # 2) ramp_sorted).
  - simpl. auto.
  - reflexivity.
Defined.

(** X2.  On a sorted list, strictly between two neighbouring
    keyframes [a] and [b] the value is [a]'s in step mode and the point of
    the segment from [a] to [b] in linear mode. *)
Theorem value_between_neighbours (actor : Actor) (l1 l2 : list KeyFrame)
        (a b : KeyFrame) (t : Q) :
  keyframes actor = l1 ++ a :: b :: l2 ->
  sorted_unique (keyframes actor) ->
  time a < t -> t < time b ->
  getActorValueAtTime actor t
  = match interpolation actor with
    | step => value a
    | linear =>
        value a + (t - time a) / (time b - time a) * (value b - value a)
    end.
Proof.
  intros E Hs Ha Hb. unfold getActorValueAtTime. rewrite E in *.
  destruct (sorted_unique_app l1 (b :: l2) a Hs) as [H1 _].
  assert (Hs' : sorted_unique ((l1 ++ [a]) ++ b :: l2))
    by (rewrite <- app_assoc; exact Hs).
  destruct (sorted_unique_app (l1 ++ [a]) l2 b Hs') as [_ H2].
  change (l1 ++ a :: b :: l2) with (l1 ++ [a] ++ b :: l2).
  rewrite app_assoc.
  replace ((l1 ++ [a]) ++ b :: l2) with ((l1 ++ [a]) ++ [] ++ b :: l2)
    by reflexivity.
  rewrite (surrounding_split (l1 ++ [a]) [] (b :: l2) t).
  - rewrite app_nil_r, last_opt_snoc. simpl.
    assert (Hne : Qeq_bool (time a) (time b) = false)
      by (apply Qeq_bool_false_iff; lra).
    rewrite Hne.
    destruct ((l1 ++ [a]) ++ b :: l2) eqn:El;
      [destruct l1; discriminate|].
    destruct (interpolation actor); reflexivity.
  - intros k Hk. apply in_app_or in Hk. destruct Hk as [Hk | [<- | []]].
    + specialize (H1 k Hk). lra.
    + exact Ha.
  - intros k [<- | Hk]; [exact Hb|]. specialize (H2 k Hk). lra.
  - intros k [].
Qed.

Lemma value_between_neighbours_witness :
  keyframes ramp = [] ++ mkKeyFrame 0 0 :: mkKeyFrame 10 1 :: []
  /\ sorted_unique (keyframes ramp)
  /\ getActorValueAtTime ramp 4
     = 0 + (4 - 0) / (10 - 0) * (1 - 0).
Proof.
  split; [reflexivity|]. split; [exact ramp_sorted|].
  apply (value_between_neighbours ramp [] [] (mkKeyFrame 0 0) (mkKeyFrame 10 1) 4
           eq_refl ramp_sorted); reflexivity.
Defined.

(** X3.  On a sorted list, at or before the first keyframe the value is
    the first keyframe's, and at or after the last keyframe it is the last
    keyframe's: nothing is extrapolated, in either mode. *)
Theorem value_held_outside (actor : Actor) (t : Q) :
  sorted_unique (keyframes actor) ->
  (forall first rest,
      keyframes actor = first :: rest -> t <= time first ->
      getActorValueAtTime actor t = value first)
  /\ (forall front last,
         keyframes actor = front ++ [last] -> time last <= t ->
         getActorValueAtTime actor t = value last).
Proof.
  intro Hs. split.
  - intros first rest E Ht.
    destruct (Qlt_le_dec t (time first)) as [Hlt | Hge].
    + unfold getActorValueAtTime. rewrite E in *.
      destruct (sorted_unique_app [] rest first Hs) as [_ H2].
      change (surrounding (first :: rest) t None None)
        with (surrounding ([] ++ [] ++ first :: rest) t None None).
      rewrite (surrounding_split [] [] (first :: rest) t); [reflexivity| | |].
      * intros k [].
      * intros k [<- | Hk]; [exact Hlt|]. specialize (H2 k Hk). lra.
      * intros k [].
    + apply value_same_pair, surrounding_at_keyframe;
        [exact Hs | rewrite E; now left | lra].
  - intros front last E Ht.
    destruct (Qlt_le_dec (time last) t) as [Hlt | Hge].
    + unfold getActorValueAtTime. rewrite E in *.
      destruct (sorted_unique_app front [] last Hs) as [H1 _].
      replace (front ++ [last]) with ((front ++ [last]) ++ [] ++ [])
        by (now rewrite !app_nil_r).
      rewrite (surrounding_split (front ++ [last]) [] [] t).
      * rewrite !app_nil_r, last_opt_snoc. simpl.
        destruct (front ++ [last]) eqn:El; [destruct front; discriminate|].
        reflexivity.
      * intros k Hk. apply in_app_or in Hk. destruct Hk as [Hk | [<- | []]].
        -- specialize (H1 k Hk). lra.
        -- exact Hlt.
      * intros k [].
      * intros k [].
    + apply value_same_pair, surrounding_at_keyframe;
        [exact Hs | rewrite E; apply in_or_app; right; now left | lra].
Qed.

Lemma value_held_outside_witness :
  sorted_unique (keyframes ramp)
  /\ getActorValueAtTime ramp (-3) = 0
  /\ getActorValueAtTime ramp 25 = 1.
Proof.
  split; [exact ramp_sorted|].
  destruct (value_held_outside ramp (-3) ramp_sorted) as [Hfirst _].
  destruct (value_held_outside ramp 25 ramp_sorted) as [_ Hlast].
  split.
  - apply (Hfirst (mkKeyFrame 0 0) [mkKeyFrame 10 1] eq_refl). discriminate.
  - apply (Hlast [mkKeyFrame 0 0] (mkKeyFrame 10 1) eq_refl). discriminate.
Defined.

(** X4.  An actor with a single keyframe has that keyframe's value at
    every time, whatever its interpolation mode. *)
Theorem single_keyframe_constant (actor : Actor) (k : KeyFrame) (t : Q) :
  keyframes actor = [k] ->
  getActorValueAtTime actor t = value k.
Proof.
  intro E. unfold getActorValueAtTime. rewrite E. simpl.
  destruct (Qle_bool (time k) t) eqn:E1; destruct (Qle_bool t (time k)) eqn:E2;
    simpl.
  - rewrite Qeq_bool_refl. reflexivity.
  - reflexivity.
  - reflexivity.
  - qbool. lra.
Qed.

Lemma single_keyframe_constant_witness :
  keyframes actor_sixteenth = [mkKeyFrame (1 # 16) (1 # 16)]
  /\ getActorValueAtTime actor_sixteenth 7 = 1 # 16.
Proof.
  split; [reflexivity|].
  exact (single_keyframe_constant actor_sixteenth (mkKeyFrame (1 # 16) (1 # 16))
           7 eq_refl).
Defined.

(** X5.  In step mode, whatever the order of the keyframes, the value
    at any time is the stored value of one of the keyframes, and of a
    keyframe at or before that time unless every keyframe is later: no
    value is computed. *)
Theorem step_value_is_stored (actor : Actor) (t : Q) :
  interpolation actor = step ->
  keyframes actor <> [] ->
  exists k,
    In k (keyframes actor)
    /\ getActorValueAtTime actor t = value k
    /\ (time k <= t \/ forall k', In k' (keyframes actor) -> t < time k').
Proof.
  intros Hstep Hne. unfold getActorValueAtTime. rewrite Hstep.
  destruct (keyframes actor) as [|k0 kfs] eqn:Ekf; [contradiction|].
  destruct (surrounding (k0 :: kfs) t None None) as [[b|] [a|]] eqn:E.
  - destruct (surrounding_before _ _ _ _ E) as [Hb Hbt].
    exists b. split; [exact Hb|]. split; [|left; exact Hbt].
    destruct (Qeq_bool (time b) (time a)); reflexivity.
  - destruct (surrounding_before _ _ _ _ E) as [Hb Hbt].
    exists b. auto.
  - destruct (surrounding_after _ _ _ _ E) as [Ha _].
    exists a. split; [exact Ha|]. split; [reflexivity|]. right.
    intros k' Hk'. rewrite surrounding_eq in E.
    assert (Hnone : last_opt (filter (fun k => Qle_bool (time k) t) (k0 :: kfs))
                             None = None) by congruence.
    destruct (Qle_bool (time k') t) eqn:Ek'; [|qbool; lra].
    exfalso.
    assert (Hin : In k' (filter (fun k => Qle_bool (time k) t) (k0 :: kfs)))
      by (apply filter_In; auto).
    destruct (filter (fun k => Qle_bool (time k) t) (k0 :: kfs)) as [|x l];
      [destruct Hin|].
    destruct (last_opt_cons l x None) as [m Hm]. congruence.
  - exfalso. rewrite surrounding_eq in E. simpl in E.
    destruct (Qle_bool (time k0) t) eqn:E1.
    + simpl in E. inversion E as [[Hlast Hhd]].
      destruct (last_opt_cons
                  (filter (fun k => Qle_bool (time k) t) kfs) k0 None)
        as [m Hm].
      simpl in Hm. congruence.
    + destruct (Qle_bool t (time k0)) eqn:E2; [simpl in E; discriminate|].
      qbool. lra.
Qed.

(** Keyframes stored out of order, (5, 1) before (2, 0): at time 3 the
    value is a stored one, here that of the keyframe at 2. *)
Lemma step_value_is_stored_witness :
  exists k,
    In k (keyframes step_unsorted)
    /\ getActorValueAtTime step_unsorted 3 = value k
    /\ (time k <= 3
        \/ forall k', In k' (keyframes step_unsorted) -> 3 < time k').
Proof.
  apply (step_value_is_stored step_unsorted 3); [reflexivity | discriminate].
Defined.

(* ------------------------------------------------------------------------ *)
(** ** Keyframe actions of the store *)

Section KeyframeActions.
Import Store.

(** Two sorted keyframe lists with the same members are the same list. *)
Lemma sorted_unique_ext (l l' : list KeyFrame) :
  sorted_unique l -> sorted_unique l' ->
  (forall k, In k l <-> In k l') -> l = l'.
Proof.
  unfold sorted_unique. intro Hs. revert l'.
  induction Hs as [|x l Hs IH Hx]; intros l' Hs' Hiff.
  - destruct l' as [|y l']; [reflexivity|].
    exfalso. apply (proj2 (Hiff y)). now left.
  - destruct Hs' as [|y l' Hs' Hy].
    + exfalso. apply (proj1 (Hiff x)). now left.
    + rewrite Forall_forall in Hx, Hy.
      assert (Exy : x = y).
      { destruct (proj1 (Hiff x) (or_introl eq_refl)) as [E | Hin];
          [now symmetry|].
        destruct (proj2 (Hiff y) (or_introl eq_refl)) as [E | Hin'];
          [exact E|].
        specialize (Hx _ Hin'). specialize (Hy _ Hin).
        unfold kf_before in *. lra. }
      subst y. f_equal. apply IH; [exact Hs'|].
      intro k. split; intro Hk.
      * destruct (proj1 (Hiff k) (or_intror Hk)) as [E | Hin]; [|exact Hin].
        subst k. specialize (Hx _ Hk). unfold kf_before in Hx. lra.
      * destruct (proj2 (Hiff k) (or_intror Hk)) as [E | Hin]; [|exact Hin].
        subst k. specialize (Hy _ Hk). unfold kf_before in Hy. lra.
Qed.

Lemma insertKeyframe_In (kf k : KeyFrame) (kfs : list KeyFrame) :
  In k (insertKeyframe kf kfs)
  <-> k = kf \/ (In k kfs /\ ~ time k == time kf).
Proof.
  unfold insertKeyframe. split.
  - intro H. apply (Permutation_in _ (array_sort_perm by_time _)) in H.
    apply in_app_or in H. destruct H as [H | [<- | []]]; [right | now left].
    apply filter_In in H. destruct H as [H1 H2].
    apply negb_true_iff, Qeq_bool_false_iff in H2. tauto.
  - intro H.
    apply (Permutation_in _ (Permutation_sym (array_sort_perm by_time _))).
    apply in_or_app. destruct H as [-> | [H1 H2]]; [right; now left | left].
    apply filter_In. split; [exact H1|].
    apply negb_true_iff, Qeq_bool_false_iff. exact H2.
Qed.

Lemma removeKeyframe_nth (st : ProjectState) (i : nat) (a : Actor) (t : Q) :
  nth_error (actors st) i = Some a ->
  nth_error (actors (removeKeyframe (id a) t st)) i
  = Some (with_keyframes a
            (filter (fun k => negb (Qeq_bool (time k) t)) (keyframes a))).
Proof.
  intro H. unfold removeKeyframe; simpl.
  rewrite nth_error_map, H. simpl. now rewrite String.eqb_refl.
Qed.

Lemma updateKeyframe_nth (st : ProjectState) (i : nat) (a : Actor) (t v : Q) :
  nth_error (actors st) i = Some a ->
  nth_error (actors (updateKeyframe (id a) t v st)) i
  = Some (with_keyframes a
            (map (fun k => if Qeq_bool (time k) t
                           then mkKeyFrame (time k) v else k)
                 (keyframes a))).
Proof.
  intro H. unfold updateKeyframe; simpl.
  rewrite nth_error_map, H. simpl. now rewrite String.eqb_refl.
Qed.

Lemma with_keyframes_same (a : Actor) : with_keyframes a (keyframes a) = a.
Proof. destruct a; reflexivity. Qed.

Lemma with_keyframes_twice (a : Actor) (l l' : list KeyFrame) :
  with_keyframes (with_keyframes a l) l' = with_keyframes a l'.
Proof. reflexivity. Qed.

(** Removing the keyframe that was just added at a fresh time. *)
Lemma remove_inserted (kf : KeyFrame) (kfs : list KeyFrame) :
  sorted_unique kfs ->
  (forall k, In k kfs -> ~ time k == time kf) ->
  filter (fun k => negb (Qeq_bool (time k) (time kf))) (insertKeyframe kf kfs)
  = kfs.
Proof.
  intros Hs Hfresh. apply sorted_unique_ext.
  - apply sorted_unique_filter. apply insertKeyframe_spec. exact Hs.
  - exact Hs.
  - intro k. rewrite filter_In, insertKeyframe_In, negb_true_iff,
      Qeq_bool_false_iff.
    split.
    + intros [[-> | [H _]] Hne]; [exfalso; apply Hne; reflexivity | exact H].
    + intro H. pose proof (Hfresh k H). tauto.
Qed.

Lemma insert_overwrites (k1 k2 : KeyFrame) (kfs : list KeyFrame) :
  sorted_unique kfs -> time k1 == time k2 ->
  insertKeyframe k2 (insertKeyframe k1 kfs) = insertKeyframe k2 kfs.
Proof.
  intros Hs Ht. apply sorted_unique_ext.
  - apply insertKeyframe_spec, insertKeyframe_spec, Hs.
  - apply insertKeyframe_spec, Hs.
  - intro k. rewrite !insertKeyframe_In. rewrite Ht. split.
    + intros [-> | [[-> | [H1 H2]] H3]]; auto.
      exfalso. apply H3. exact Ht.
    + intros [-> | [H1 H2]]; auto.
  Qed.

Lemma insert_commutes (k1 k2 : KeyFrame) (kfs : list KeyFrame) :
  sorted_unique kfs -> ~ time k1 == time k2 ->
  insertKeyframe k1 (insertKeyframe k2 kfs)
  = insertKeyframe k2 (insertKeyframe k1 kfs).
Proof.
  intros Hs Ht. apply sorted_unique_ext.
  - apply insertKeyframe_spec, insertKeyframe_spec, Hs.
  - apply insertKeyframe_spec, insertKeyframe_spec, Hs.
  - intro k. rewrite !insertKeyframe_In.
    assert (Ht' : ~ time k2 == time k1) by (intro E; apply Ht; now symmetry).
    split.
    + intros [-> | [[-> | [H1 H2]] H3]]; tauto.
    + intros [-> | [[-> | [H1 H2]] H3]]; tauto.
Qed.

End KeyframeActions.

(** X6.  [removeKeyframe(actorId, time)] on a sorted keyframe list
    removes the keyframe at that time and nothing else, keeps the list
    sorted, and leaves the actor as it was when it has no keyframe at that
    time. *)
Theorem removeKeyframe_spec (st : Store.ProjectState) (i : nat) (a : Actor)
        (t : Q) :
  nth_error (Store.actors st) i = Some a ->
  sorted_unique (keyframes a) ->
  exists a',
    nth_error (Store.actors (Store.removeKeyframe (id a) t st)) i = Some a'
    /\ (id a' = id a /\ label a' = label a /\ shapes a' = shapes a
        /\ interpolation a' = interpolation a)
    /\ sorted_unique (keyframes a')
    /\ (forall k, In k (keyframes a') <-> In k (keyframes a) /\ ~ time k == t)
    /\ ((forall k, In k (keyframes a) -> ~ time k == t) -> a' = a).
Proof.
  intros Hnth Hs. eexists. split; [apply removeKeyframe_nth; exact Hnth|].
  simpl. split; [auto|]. split; [apply sorted_unique_filter; exact Hs|].
  split.
  - intro k. rewrite filter_In, negb_true_iff, Qeq_bool_false_iff. tauto.
  - intro Hnone. rewrite filter_all; [apply with_keyframes_same|].
    intros k Hk. apply negb_true_iff, Qeq_bool_false_iff, Hnone, Hk.
Qed.

Lemma removeKeyframe_spec_witness :
  nth_error (Store.actors one_actor) 0 = Some ramp
  /\ sorted_unique (keyframes ramp)
  /\ exists a',
      nth_error (Store.actors (Store.removeKeyframe (id ramp) 10 one_actor)) 0
      = Some a'
      /\ sorted_unique (keyframes a').
Proof.
  split; [reflexivity|]. split; [exact ramp_sorted|].
  destruct (removeKeyframe_spec one_actor 0 ramp 10 eq_refl ramp_sorted)
    as (a' & H1 & _ & H2 & _).
  exists a'. split; assumption.
Defined.

(** X7.  On a sorted keyframe list with no keyframe at the new
    time, [addKeyframe] followed by [removeKeyframe] at that time gives the
    actor back unchanged. *)
Theorem addKeyframe_then_removeKeyframe (st : Store.ProjectState) (i : nat)
        (a : Actor) (kf : KeyFrame) :
  nth_error (Store.actors st) i = Some a ->
  sorted_unique (keyframes a) ->
  (forall k, In k (keyframes a) -> ~ time k == time kf) ->
  nth_error
    (Store.actors
       (Store.removeKeyframe (id a) (time kf) (Store.addKeyframe (id a) kf st)))
    i
  = Some a.
Proof.
  intros Hnth Hs Hfresh.
  pose proof (addKeyframe_nth st i a kf Hnth) as H1.
  pose proof (removeKeyframe_nth _ i _ (time kf) H1) as H2.
  cbn [Store.with_keyframes id keyframes] in H2. rewrite H2. f_equal.
  rewrite with_keyframes_twice.
  rewrite (remove_inserted kf (keyframes a) Hs Hfresh).
  apply with_keyframes_same.
Qed.

Lemma addKeyframe_then_removeKeyframe_witness :
  nth_error (Store.actors one_actor) 0 = Some ramp
  /\ sorted_unique (keyframes ramp)
  /\ nth_error
       (Store.actors
          (Store.removeKeyframe (id ramp) 5
             (Store.addKeyframe (id ramp) (mkKeyFrame 5 (1 # 2)) one_actor)))
       0
     = Some ramp.
Proof.
  split; [reflexivity|]. split; [exact ramp_sorted|].
  apply (addKeyframe_then_removeKeyframe one_actor 0 ramp (mkKeyFrame 5 (1 # 2))
           eq_refl ramp_sorted).
  intros k [<- | [<- | []]]; simpl; discriminate.
Defined.

(** X8.  On a sorted keyframe list, a second [addKeyframe] at the
    same time makes the first one disappear without trace, and two
    [addKeyframe] at different times give the same list in either order. *)
Theorem addKeyframe_composes (st : Store.ProjectState) (i : nat) (a : Actor)
        (k1 k2 : KeyFrame) :
  nth_error (Store.actors st) i = Some a ->
  sorted_unique (keyframes a) ->
  (time k1 == time k2 ->
   nth_error (Store.actors
                (Store.addKeyframe (id a) k2 (Store.addKeyframe (id a) k1 st))) i
   = nth_error (Store.actors (Store.addKeyframe (id a) k2 st)) i)
  /\ (~ time k1 == time k2 ->
      nth_error (Store.actors
                   (Store.addKeyframe (id a) k1 (Store.addKeyframe (id a) k2 st))) i
      = nth_error (Store.actors
                     (Store.addKeyframe (id a) k2 (Store.addKeyframe (id a) k1 st))) i).
Proof.
  intros Hnth Hs.
  pose proof (addKeyframe_nth st i a k1 Hnth) as H1.
  pose proof (addKeyframe_nth st i a k2 Hnth) as H2.
  pose proof (addKeyframe_nth _ i _ k2 H1) as H12.
  pose proof (addKeyframe_nth _ i _ k1 H2) as H21.
  cbn [Store.with_keyframes id keyframes] in H12, H21. split; intro Ht.
  - rewrite H12, H2, with_keyframes_twice.
    now rewrite insert_overwrites.
  - rewrite H12, H21, !with_keyframes_twice.
    now rewrite insert_commutes.
Qed.

Lemma addKeyframe_composes_witness :
  nth_error (Store.actors one_actor) 0 = Some ramp
  /\ sorted_unique (keyframes ramp)
  /\ nth_error (Store.actors
                  (Store.addKeyframe (id ramp) (mkKeyFrame 2 1)
                     (Store.addKeyframe (id ramp) (mkKeyFrame 7 0) one_actor))) 0
     = nth_error (Store.actors
                    (Store.addKeyframe (id ramp) (mkKeyFrame 7 0)
                       (Store.addKeyframe (id ramp) (mkKeyFrame 2 1) one_actor))) 0.
Proof.
  split; [reflexivity|]. split; [exact ramp_sorted|].
  apply (proj2 (addKeyframe_composes one_actor 0 ramp (mkKeyFrame 2 1)
                  (mkKeyFrame 7 0) eq_refl ramp_sorted)).
  simpl. discriminate.
Defined.

Lemma inserted_value (a : Actor) (kf : KeyFrame) (t : Q) :
  sorted_unique (keyframes a) -> t == time kf ->
  getActorValueAtTime
    (Store.with_keyframes a (Store.insertKeyframe kf (keyframes a))) t
  = value kf.
Proof.
  intros Hs Ht. apply value_same_pair, surrounding_at_keyframe.
  - simpl. apply insertKeyframe_spec. exact Hs.
  - simpl. apply insertKeyframe_In. now left.
  - exact Ht.
Qed.

(** X9.  After [addKeyframe(actorId, {time, value})] on a sorted
    keyframe list, the actor's value at that time is the new value, in step
    and in linear mode. *)
Theorem addKeyframe_then_value (st : Store.ProjectState) (i : nat) (a : Actor)
        (kf : KeyFrame) :
  nth_error (Store.actors st) i = Some a ->
  sorted_unique (keyframes a) ->
  exists a',
    nth_error (Store.actors (Store.addKeyframe (id a) kf st)) i = Some a'
    /\ forall t, t == time kf -> getActorValueAtTime a' t = value kf.
Proof.
  intros Hnth Hs. eexists. split; [apply addKeyframe_nth; exact Hnth|].
  intros t Ht. apply inserted_value; assumption.
Qed.

Lemma addKeyframe_then_value_witness :
  nth_error (Store.actors one_actor) 0 = Some ramp
  /\ sorted_unique (keyframes ramp)
  /\ exists a',
      nth_error (Store.actors
                   (Store.addKeyframe (id ramp) (mkKeyFrame 5 (9 # 10)) one_actor)) 0
      = Some a'
      /\ getActorValueAtTime a' 5 = 9 # 10.
Proof.
  split; [reflexivity|]. split; [exact ramp_sorted|].
  destruct (addKeyframe_then_value one_actor 0 ramp (mkKeyFrame 5 (9 # 10))
              eq_refl ramp_sorted) as (a' & H1 & H2).
  exists a'. split; [exact H1|]. apply H2. reflexivity.
Defined.

(** X10.  A double click on the track of an actor with a sorted
    keyframe list, while no keyframe is being edited, puts the actor's value
    at the clicked time on the other side of 0.5: it becomes 0 where it was
    above 0.5 and 1 where it was not. *)
Theorem handleDoubleClick_toggles (st : Store.ProjectState) (i : nat)
        (a : Actor) (x zoom : Q) :
  nth_error (Store.actors st) i = Some a ->
  sorted_unique (keyframes a) ->
  ~ zoom == 0 ->
  exists a',
    nth_error (Store.actors (ActorTrack.handleDoubleClick false a x zoom st)) i
    = Some a'
    /\ let t := Math_max 0 (x / zoom) in
       (1 # 2 < getActorValueAtTime a t -> getActorValueAtTime a' t = 0)
       /\ (getActorValueAtTime a t <= 1 # 2 -> getActorValueAtTime a' t = 1).
Proof.
  intros Hnth Hs _. unfold ActorTrack.handleDoubleClick. cbv zeta.
  set (t := Math_max 0 (x / zoom)).
  set (kf := mkKeyFrame t (if Qlt_bool (1 # 2) (getActorValueAtTime a t)
                           then 0 else 1)).
  exists (Store.with_keyframes a (Store.insertKeyframe kf (keyframes a))).
  split; [apply addKeyframe_nth; exact Hnth|].
  pose proof (inserted_value a kf t Hs (Qeq_refl _)) as H2.
  unfold kf at 2 in H2. simpl in H2. split; intro Hv.
  - apply Qlt_bool_iff in Hv. rewrite Hv in H2. exact H2.
  - apply Qlt_bool_false_iff in Hv. rewrite Hv in H2. exact H2.
Qed.

Lemma handleDoubleClick_toggles_witness :
  nth_error (Store.actors one_actor) 0 = Some ramp
  /\ sorted_unique (keyframes ramp)
  /\ ~ 100 == 0
  /\ exists a',
      nth_error (Store.actors
                   (ActorTrack.handleDoubleClick false ramp 800 100 one_actor)) 0
      = Some a'
      /\ (1 # 2 < getActorValueAtTime ramp (Math_max 0 (800 / 100)) ->
          getActorValueAtTime a' (Math_max 0 (800 / 100)) = 0).
Proof.
  split; [reflexivity|]. split; [exact ramp_sorted|].
  split; [discriminate|].
  destruct (handleDoubleClick_toggles one_actor 0 ramp 800 100 eq_refl ramp_sorted
              ltac:(discriminate))
    as (a' & H1 & H2 & _).
  exists a'. split; [exact H1 | exact H2].
Defined.

Section UpdateKeyframe.

Lemma retimed_sorted (f : KeyFrame -> KeyFrame) (l : list KeyFrame) :
  (forall k, time (f k) = time k) ->
  sorted_unique l -> sorted_unique (map f l).
Proof.
  intros Hf. unfold sorted_unique. induction 1 as [|x l Hs IH Hx]; simpl.
  - constructor.
  - constructor; [exact IH|].
    rewrite Forall_forall in *. intros y Hy. apply in_map_iff in Hy.
    destruct Hy as (z & <- & Hz). unfold kf_before.
    rewrite !Hf. apply Hx, Hz.
Qed.

Lemma map_unchanged {A} (f : A -> A) (l : list A) :
  (forall x, In x l -> f x = x) -> map f l = l.
Proof.
  induction l as [|x l IH]; intro H; simpl.
  - reflexivity.
  - rewrite (H x (or_introl eq_refl)). f_equal.
    apply IH. intros y Hy. apply H. now right.
Qed.

End UpdateKeyframe.

(** X11.  [updateKeyframe(actorId, time, value)] keeps the times of all
    keyframes, so a sorted list stays sorted; the keyframes at that time get
    the new value and the others are untouched; without a keyframe at that
    time the actor is unchanged, no keyframe is created. *)
Theorem updateKeyframe_spec (st : Store.ProjectState) (i : nat) (a : Actor)
        (t v : Q) :
  nth_error (Store.actors st) i = Some a ->
  sorted_unique (keyframes a) ->
  exists a',
    nth_error (Store.actors (Store.updateKeyframe (id a) t v st)) i = Some a'
    /\ map time (keyframes a') = map time (keyframes a)
    /\ sorted_unique (keyframes a')
    /\ (forall k, In k (keyframes a') -> time k == t -> value k = v)
    /\ (forall k, ~ time k == t ->
                  (In k (keyframes a') <-> In k (keyframes a)))
    /\ ((forall k, In k (keyframes a) -> ~ time k == t) -> a' = a).
Proof.
  intros Hnth Hs. eexists. split; [apply updateKeyframe_nth; exact Hnth|].
  cbn [Store.with_keyframes keyframes].
  set (upd := fun k => if Qeq_bool (time k) t then mkKeyFrame (time k) v else k).
  assert (Htime : forall k, time (upd k) = time k).
  { intro k. unfold upd. destruct (Qeq_bool (time k) t); reflexivity. }
  split.
  { rewrite map_map. apply map_ext. exact Htime. }
  split; [apply retimed_sorted; assumption|].
  split.
  { intros k Hk Ht. apply in_map_iff in Hk. destruct Hk as (z & <- & Hz).
    rewrite Htime in Ht. unfold upd.
    apply Qeq_bool_iff in Ht. rewrite Ht. reflexivity. }
  split.
  { intros k Hne. rewrite in_map_iff. split.
    - intros (z & <- & Hz). rewrite Htime in Hne. unfold upd.
      apply Qeq_bool_false_iff in Hne. rewrite Hne. exact Hz.
    - intro Hk. exists k. split; [|exact Hk]. unfold upd.
      apply Qeq_bool_false_iff in Hne. rewrite Hne. reflexivity. }
  intro Hnone. rewrite map_unchanged; [apply with_keyframes_same|].
  intros k Hk. unfold upd.
  pose proof (proj2 (Qeq_bool_false_iff _ _) (Hnone k Hk)) as E.
  rewrite E. reflexivity.
Qed.

Lemma updateKeyframe_spec_witness :
  nth_error (Store.actors one_actor) 0 = Some ramp
  /\ sorted_unique (keyframes ramp)
  /\ exists a',
      nth_error (Store.actors (Store.updateKeyframe (id ramp) 10 (1 # 4) one_actor)) 0
      = Some a'
      /\ map time (keyframes a') = map time (keyframes ramp).
Proof.
  split; [reflexivity|]. split; [exact ramp_sorted|].
  destruct (updateKeyframe_spec one_actor 0 ramp 10 (1 # 4) eq_refl ramp_sorted)
    as (a' & H1 & H2 & _).
  exists a'. split; assumption.
Defined.

Section Clamping.

Lemma Math_max_spec (a b : Q) :
  a <= Math_max a b /\ b <= Math_max a b
  /\ (Math_max a b = a \/ Math_max a b = b).
Proof.
  unfold Math_max. destruct (Qle_bool a b) eqn:E; qbool;
    repeat split; auto; lra.
Qed.

Lemma Math_min_spec (a b : Q) :
  Math_min a b <= a /\ Math_min a b <= b
  /\ (Math_min a b = a \/ Math_min a b = b).
Proof.
  unfold Math_min. destruct (Qle_bool a b) eqn:E; qbool;
    repeat split; auto; lra.
Qed.

(** [Math.max(lo, Math.min(hi, x))] and [Math.max(lo, Math.min(x, hi))]. *)
Lemma clamp_range (lo hi x : Q) :
  lo <= hi ->
  (lo <= Math_max lo (Math_min hi x) /\ Math_max lo (Math_min hi x) <= hi)
  /\ (lo <= Math_max lo (Math_min x hi) /\ Math_max lo (Math_min x hi) <= hi).
Proof.
  intro H. unfold Math_max, Math_min.
  destruct (Qle_bool hi x) eqn:E1; destruct (Qle_bool x hi) eqn:E2;
    destruct (Qle_bool lo hi) eqn:E3; destruct (Qle_bool lo x) eqn:E4;
    qbool; repeat split; lra.
Qed.

Lemma clamp_inside (lo hi x : Q) :
  lo <= x -> x <= hi ->
  Math_max lo (Math_min hi x) == x /\ Math_max lo (Math_min x hi) == x.
Proof.
  intros H1 H2. unfold Math_max, Math_min.
  destruct (Qle_bool hi x) eqn:E1; destruct (Qle_bool x hi) eqn:E2;
    destruct (Qle_bool lo hi) eqn:E3; destruct (Qle_bool lo x) eqn:E4;
    qbool; split; lra.
Qed.

Lemma sorted_same_time (l : list KeyFrame) (x y : KeyFrame) :
  sorted_unique l -> In x l -> In y l -> time x == time y -> x = y.
Proof.
  intros Hs Hx Hy Ht. destruct (in_split _ _ Hx) as (l1 & l2 & E). subst l.
  destruct (sorted_unique_app _ _ _ Hs) as [H1 H2].
  apply in_app_or in Hy. destruct Hy as [Hy | [Hy | Hy]].
  - specialize (H1 _ Hy). lra.
  - now symmetry.
  - specialize (H2 _ Hy). lra.
Qed.

End Clamping.

(** X12.  Submitting an edited value for a keyframe of a sorted list
    (remove, then add at the same time) gives the actor the same keyframes
    as [updateKeyframe] with the clamped value, and that value lies in
    [0,1] whatever number was typed. *)
Theorem handleValueSubmit_is_updateKeyframe (st : Store.ProjectState) (i : nat)
        (a : Actor) (kf : KeyFrame) (parsed : Q) :
  nth_error (Store.actors st) i = Some a ->
  sorted_unique (keyframes a) ->
  In kf (keyframes a) ->
  nth_error
    (Store.actors (ActorTrack.handleValueSubmit (Some kf) a parsed st)) i
  = nth_error
      (Store.actors
         (Store.updateKeyframe (id a) (time kf)
            (ActorTrack.submitted_value parsed) st)) i
  /\ 0 <= ActorTrack.submitted_value parsed
  /\ ActorTrack.submitted_value parsed <= 1.
Proof.
  intros Hnth Hs Hin. split.
  - unfold ActorTrack.handleValueSubmit.
    set (v := ActorTrack.submitted_value parsed).
    pose proof (removeKeyframe_nth st i a (time kf) Hnth) as H1.
    pose proof (addKeyframe_nth _ i _ (mkKeyFrame (time kf) v) H1) as H2.
    cbn [Store.with_keyframes id keyframes] in H2.
    rewrite H2, (updateKeyframe_nth st i a (time kf) v Hnth). f_equal.
    unfold Store.with_keyframes. f_equal.
    set (upd := fun k => if Qeq_bool (time k) (time kf)
                         then mkKeyFrame (time k) v else k).
    assert (Htime : forall k, time (upd k) = time k).
    { intro k. unfold upd. destruct (Qeq_bool (time k) (time kf)); reflexivity. }
    apply sorted_unique_ext.
    + apply insertKeyframe_spec, sorted_unique_filter, Hs.
    + apply retimed_sorted; assumption.
    + intro k. rewrite insertKeyframe_In, filter_In, in_map_iff,
        negb_true_iff, Qeq_bool_false_iff.
      cbn [time]. split.
      * intros [-> | [[Hk Hne] _]].
        -- exists kf. split; [|exact Hin]. unfold upd.
           rewrite Qeq_bool_refl. reflexivity.
        -- exists k. split; [|exact Hk]. unfold upd.
           apply Qeq_bool_false_iff in Hne. rewrite Hne. reflexivity.
      * intros (z & <- & Hz). unfold upd.
        destruct (Qeq_bool (time z) (time kf)) eqn:E; qbool.
        -- left. rewrite (sorted_same_time _ z kf Hs Hz Hin E). reflexivity.
        -- right. tauto.
  - unfold ActorTrack.submitted_value.
    apply (clamp_range 0 1 parsed). discriminate.
Qed.

Lemma handleValueSubmit_is_updateKeyframe_witness :
  nth_error (Store.actors one_actor) 0 = Some ramp
  /\ sorted_unique (keyframes ramp)
  /\ In (mkKeyFrame 10 1) (keyframes ramp)
  /\ ActorTrack.submitted_value 7 <= 1.
Proof.
  split; [reflexivity|]. split; [exact ramp_sorted|].
  split; [simpl; auto|].
  refine (proj2 (proj2 (handleValueSubmit_is_updateKeyframe one_actor 0 ramp
                          (mkKeyFrame 10 1) 7 eq_refl ramp_sorted _))).
  simpl. auto.
Defined.

(** X13.  [seek(time)] never puts the playhead before 0; with a duration
    that is not negative it puts it in [0, duration], exactly at the
    requested time when that time is in range; seeking again to the time
    reached changes nothing. *)
Theorem seek_clamps (t : Q) (st : Store.ProjectState) :
  let st' := Store.seek t st in
  let d := duration (Store.playback st) in
  0 <= currentTime (Store.playback st')
  /\ duration (Store.playback st') = d
  /\ (0 <= d -> currentTime (Store.playback st') <= d)
  /\ (0 <= t -> t <= d -> currentTime (Store.playback st') == t)
  /\ (0 <= d ->
      currentTime
        (Store.playback (Store.seek (currentTime (Store.playback st')) st'))
      == currentTime (Store.playback st')).
Proof.
  cbv zeta. cbn [Store.seek Store.set_playback Store.playback currentTime duration].
  set (d := duration (Store.playback st)).
  split; [apply Math_max_spec|]. split; [reflexivity|].
  split; [intro Hd; apply (clamp_range 0 d t Hd)|].
  split; [intros H0 H1; apply (clamp_inside 0 d t H0 H1)|].
  intro Hd. apply (clamp_inside 0 d); apply (clamp_range 0 d t Hd).
Qed.

(** X14.  [setZoom(zoom)] always leaves the timeline zoom in [10, 500],
    and sets it to the requested value when that is in the range. *)
Theorem setZoom_clamps (z : Q) (st : Store.ProjectState) :
  (10 <= zoom (Store.ui (Store.setZoom z st))
   /\ zoom (Store.ui (Store.setZoom z st)) <= 500)
  /\ (10 <= z -> z <= 500 -> zoom (Store.ui (Store.setZoom z st)) == z).
Proof.
  cbn [Store.setZoom Store.set_ui Store.ui zoom]. split.
  - apply (clamp_range 10 500 z). discriminate.
  - intros H0 H1. apply (clamp_inside 10 500 z H0 H1).
Qed.

Section Backgrounds.

Lemma fold_max_ge (l : list Q) (a : Q) :
  a <= fold_left Math_max l a
  /\ forall x, In x l -> x <= fold_left Math_max l a.
Proof.
  revert a. induction l as [|y l IH]; intro a; simpl.
  - split; [lra | intros x []].
  - destruct (IH (Math_max a y)) as [H1 H2].
    destruct (Math_max_spec a y) as (Ha & Hy & _).
    split; [lra|]. intros x [<- | Hx]; [lra | apply H2, Hx].
Qed.

End Backgrounds.

(** X15.  [addBackground] appends one background that carries the
    given id and size and a z-index that is at least 1 and strictly above
    every existing one, so the new image is painted on top; the canvas
    grows to hold the image and never shrinks; nothing else changes. *)
Theorem addBackground_on_top (new_id url : string) (w h : Q)
        (st : Store.ProjectState) :
  let st' := snd (Store.addBackground new_id url w h st) in
  fst (Store.addBackground new_id url w h st) = new_id
  /\ (exists z,
         Store.backgrounds st'
         = Store.backgrounds st ++ [mkCanvasBackground new_id url 0 0 w h z]
         /\ 1 <= z
         /\ forall b, In b (Store.backgrounds st) -> zIndex b < z)
  /\ (canvasWidth (Store.project st) <= canvasWidth (Store.project st')
      /\ canvasHeight (Store.project st) <= canvasHeight (Store.project st'))
  /\ (w <= canvasWidth (Store.project st')
      /\ h <= canvasHeight (Store.project st'))
  /\ (w <= canvasWidth (Store.project st) ->
      h <= canvasHeight (Store.project st) ->
      Store.project st' = Store.project st)
  /\ (name (Store.project st') = name (Store.project st)
      /\ songFilename (Store.project st') = songFilename (Store.project st)
      /\ Store.actors st' = Store.actors st
      /\ Store.playback st' = Store.playback st
      /\ Store.ui st' = Store.ui st).
Proof.
  cbv zeta. unfold Store.addBackground.
  set (curW := canvasWidth (Store.project st)).
  set (curH := canvasHeight (Store.project st)).
  destruct (fold_max_ge (map zIndex (Store.backgrounds st)) 0) as [Hz0 Hz].
  assert (Hbg : exists z,
             Store.backgrounds st
             ++ [mkCanvasBackground new_id url 0 0 w h
                   (Store.maxZIndex (Store.backgrounds st) + 1)]
             = Store.backgrounds st ++ [mkCanvasBackground new_id url 0 0 w h z]
             /\ 1 <= z
             /\ forall b, In b (Store.backgrounds st) -> zIndex b < z).
  { eexists. split; [reflexivity|]. unfold Store.maxZIndex. split; [lra|].
    intros b Hb. specialize (Hz (zIndex b) (in_map zIndex _ _ Hb)). lra. }
  destruct (Math_max_spec curW w) as (HW1 & HW2 & _).
  destruct (Math_max_spec curH h) as (HH1 & HH2 & _).
  destruct (Qlt_bool curW w || Qlt_bool curH h) eqn:E; simpl.
  - repeat split; try assumption; try reflexivity.
    intros Hw Hh. exfalso. apply orb_true_iff in E.
    destruct E as [E | E]; qbool; fold curW curH in Hw, Hh; lra.
  - apply orb_false_iff in E. destruct E as [E1 E2]. qbool.
    fold curW curH. repeat split; try assumption; try reflexivity; lra.
Qed.

Example addBackground_grows_canvas :
  let st' := snd (Store.addBackground "b1" "data:" 2000 500 one_actor) in
  canvasWidth (Store.project st') = 2000
  /\ canvasHeight (Store.project st') = 1080
  /\ map zIndex (Store.backgrounds st') = [0 + 1].
Proof. repeat split; reflexivity. Qed.

(* ------------------------------------------------------------------------ *)
(** ** Cue sampler: how many cues, and what they carry *)

Section CueCount.
Import Toolbar.




End CueCount.



Section CueContents.
Import Toolbar.

(** The value of an actor with keyframes is a keyframe value or lies on the
    segment between two of them. *)
Lemma value_cases (actor : Actor) (t : Q) :
  keyframes actor <> [] ->
  (exists k, In k (keyframes actor) /\ getActorValueAtTime actor t = value k)
  \/ (exists b a p,
         In b (keyframes actor) /\ In a (keyframes actor)
         /\ 0 <= p /\ p <= 1
         /\ getActorValueAtTime actor t = value b + p * (value a - value b)).
Proof.
  intro Hne. unfold getActorValueAtTime.
  destruct (keyframes actor) as [|k0 kfs] eqn:Ekf; [contradiction|].
  destruct (surrounding (k0 :: kfs) t None None) as [[b|] [a|]] eqn:E.
  - destruct (surrounding_before _ _ _ _ E) as [Hb Hbt].
    destruct (surrounding_after _ _ _ _ E) as [Ha Hat].
    destruct (Qeq_bool (time b) (time a)) eqn:Eq; [left; eauto|].
    destruct (interpolation actor); [left; eauto|].
    qbool. destruct (lerp_param_unit b a t Hbt Hat Eq) as [Hp0 Hp1].
    right. exists b, a, (lerp_param b a t). auto.
  - destruct (surrounding_before _ _ _ _ E) as [Hb _]. left; eauto.
  - destruct (surrounding_after _ _ _ _ E) as [Ha _]. left; eauto.
  - exfalso. rewrite surrounding_eq in E. simpl in E.
    destruct (Qle_bool (time k0) t) eqn:E1.
    + destruct (last_opt_cons
                  (filter (fun k => Qle_bool (time k) t) kfs) k0 None)
        as [m Hm].
      simpl in Hm. inversion E. congruence.
    + destruct (Qle_bool t (time k0)) eqn:E2; [simpl in E; discriminate|].
      qbool. lra.
Qed.

Lemma value_unit (actor : Actor) (t : Q) :
  Forall unit_value (keyframes actor) ->
  0 <= getActorValueAtTime actor t /\ getActorValueAtTime actor t <= 1.
Proof.
  intro Hu. rewrite Forall_forall in Hu. unfold unit_value in Hu.
  destruct (keyframes actor) as [|k0 kfs] eqn:Ekf.
  - unfold getActorValueAtTime. rewrite Ekf. lra.
  - destruct (value_cases actor t) as [(k & Hk & ->) | (b & a & p & Hb & Ha & Hp0 & Hp1 & ->)];
      try (rewrite Ekf; discriminate); rewrite Ekf in *.
    + apply Hu, Hk.
    + destruct (Hu _ Hb), (Hu _ Ha). split; nra.
Qed.

Lemma round3_unit (x : Q) : 0 <= x -> x <= 1 -> 0 <= round3 x /\ round3 x <= 1.
Proof.
  intros H0 H1. unfold round3, Math_round.
  assert (Hlo : (0 <= Qfloor (x * 1000 + (1 # 2)))%Z).
  { change 0%Z with (Qfloor 0). apply Qfloor_resp_le. lra. }
  assert (Hhi : (Qfloor (x * 1000 + (1 # 2)) <= 1000)%Z).
  { apply (Qfloor_resp_le (x * 1000 + (1 # 2)) (1000 + (1 # 2))). lra. }
  rewrite Zle_Qle in Hlo, Hhi.
  change (inject_Z 0) with 0 in Hlo. change (inject_Z 1000) with 1000 in Hhi.
  split.
  - apply Qle_shift_div_l; [reflexivity | lra].
  - apply Qle_shift_div_r; [reflexivity | lra].
Qed.

Lemma keyframe_cues_In (acts : list Actor) (c : ExportedCue) :
  In c (keyframe_cues acts) ->
  exists actor,
    In actor acts /\ cue_id c = label actor
    /\ (cue_state c = getActorValueAtTime actor 0 /\ cue_t c = 0
        \/ exists kf, In kf (keyframes actor)
                      /\ cue_t c = time kf /\ cue_state c = value kf).
Proof.
  unfold keyframe_cues. intro H. apply in_flat_map in H.
  destruct H as (actor & Hin & [<- | Hc]).
  - exists actor. simpl. auto.
  - apply in_map_iff in Hc. destruct Hc as (kf & <- & Hkf).
    exists actor. simpl. split; [exact Hin|]. split; [reflexivity|].
    right. exists kf. auto.
Qed.

End CueContents.

(** X17.  If every keyframe value of every actor lies in [0,1], every
    exported cue carries the label of one of the actors as its id and a state
    in [0,1], with or without audio. *)
Theorem generateCues_states_in_unit_range
        (localeCompare : string -> string -> Q) (fuel : nat)
        (acts : list Actor) (pb : PlaybackState) (tickRate : Q)
        (cues : list ExportedCue) :
  Toolbar.generateCues localeCompare fuel acts pb tickRate = Some cues ->
  (forall actor, In actor acts -> Forall unit_value (keyframes actor)) ->
  forall c, In c cues ->
    (exists actor, In actor acts /\ cue_id c = label actor)
    /\ 0 <= cue_state c /\ cue_state c <= 1.
Proof.
  unfold Toolbar.generateCues, Toolbar.collect_cues. intros H Hu c Hc.
  destruct (Qeq_bool (num_or (duration pb) 0) 0).
  - simpl in H. inversion H; subst.
    apply (Permutation_in _ (array_sort_perm _ _)) in Hc.
    destruct (keyframe_cues_In _ _ Hc)
      as (actor & Hin & Hid & [[Hst _] | (kf & Hkf & _ & Hst)]).
    + split; [eauto|]. rewrite Hst. apply value_unit, Hu, Hin.
    + split; [eauto|]. rewrite Hst.
      pose proof (Hu _ Hin) as Hall. rewrite Forall_forall in Hall.
      apply Hall, Hkf.
  - destruct (Toolbar.sample_loop fuel acts (num_or (duration pb) 0) tickRate 0)
      as [raw|] eqn:E; [|discriminate].
    inversion H; subst.
    apply (Permutation_in _ (array_sort_perm _ _)) in Hc.
    destruct (sample_loop_cues _ _ _ _ _ _ E c Hc)
      as (actor & t & Hin & _ & Hid & Hst).
    split; [eauto|]. rewrite Hst.
    apply round3_unit; apply value_unit, Hu, Hin.
Qed.

Lemma generateCues_states_in_unit_range_witness :
  exists cues,
    Toolbar.generateCues Toolbar.codeunit_compare 5 [actor_A] one_second (1 # 2)
    = Some cues
    /\ forall c, In c cues -> 0 <= cue_state c /\ cue_state c <= 1.
Proof.
  destruct (Toolbar.generateCues Toolbar.codeunit_compare 5 [actor_A]
                                 one_second (1 # 2)) as [cues|] eqn:E.
  - exists cues. split; [reflexivity|]. intros c Hc.
    refine (proj2 (generateCues_states_in_unit_range Toolbar.codeunit_compare 5
                     [actor_A] one_second (1 # 2) cues E _ c Hc)).
    intros actor [<- | []]. unfold unit_value. simpl.
    repeat constructor; simpl; lra.
  - vm_compute in E. discriminate.
Defined.

(* ------------------------------------------------------------------------ *)
(** ** Canvas panel: view, drawing tools, selection *)

Section CanvasFacts.
Import Canvas.

Lemma min_max_range (x lo hi : Q) :
  lo <= hi ->
  lo <= Math_min (Math_max x lo) hi /\ Math_min (Math_max x lo) hi <= hi.
Proof.
  intro H. unfold Math_min, Math_max.
  destruct (Qle_bool x lo) eqn:E1.
  - destruct (Qle_bool lo hi) eqn:E2; qbool; split; lra.
  - destruct (Qle_bool x hi) eqn:E2; qbool; split; lra.
Qed.

Lemma drag_rectangle_Some (sx sy x y : Q) (polygon : Polygon) :
  drag_rectangle sx sy x y = Some polygon ->
  polygon = Rectangle (Math_min sx x) (Math_min sy y)
                      (Math_abs (x - sx)) (Math_abs (y - sy))
  /\ 10 < Math_abs (x - sx) /\ 10 < Math_abs (y - sy).
Proof.
  unfold drag_rectangle.
  destruct (Qlt_bool 10 (Math_abs (x - sx))) eqn:E1;
    destruct (Qlt_bool 10 (Math_abs (y - sy))) eqn:E2; simpl;
    try discriminate.
  intro H. inversion H. qbool. auto.
Qed.

End CanvasFacts.

Example drag_up_left :
  Canvas.drag_rectangle 50 50 20 30 = Some (Rectangle 20 30 (- (20 - 50)) (- (30 - 50)))
  /\ Canvas.drag_rectangle 50 50 55 90 = None.
Proof. split; reflexivity. Qed.

Section PanelInvariant.
Import Canvas.
Variable Math_sqrt : Q -> Q.

Lemma offer_shape_ok (p : Panel) (polygon : Polygon) :
  shape_acceptable polygon -> panel_ok (offer_shape p polygon).
Proof.
  intro H. split; simpl.
  - intros q E. inversion E; subst. exact H.
  - split; [discriminate | reflexivity].
Qed.

Lemma closed_ok (d : DrawingState) (v : ViewState) (c : bool) :
  panel_ok (mkPanel d v false None c).
Proof.
  split; simpl.
  - discriminate.
  - split; [discriminate | intro H; now contradiction H].
Qed.

Lemma same_pending_ok (p : Panel) (d : DrawingState) (v : ViewState) (c : bool) :
  panel_ok p ->
  panel_ok (mkPanel d v (showActorAssignModal p) (pendingShape p) c).
Proof. intro H. exact H. Qed.

Lemma handle_ok (p : Panel) (ev : Env * PanelEvent) :
  panel_ok p -> panel_ok (handle Math_sqrt p ev).
Proof.
  intro H. destruct ev as [env [e|e|e|e| |deltaY e| | | | | | | | | ]];
    unfold handle; cbn [fst snd].
  - unfold handleMouseDown.
    destruct (Z.eqb (button e) 1 || (ctrlPressed p && Z.eqb (button e) 0));
      [apply same_pending_ok, H|].
    destruct (negb (Z.eqb (button e) 0)); [exact H|].
    destruct (coords env p e) as [x y].
    destruct (is_tool (env_tool env) tool_rectangle);
      [apply same_pending_ok, H | exact H].
  - unfold handleMouseMove.
    destruct (isPanning (viewState p)); [apply same_pending_ok, H|].
    destruct (coords env p e) as [x y].
    destruct (isDrawing (drawingState p) && is_tool (env_tool env) tool_rectangle);
      [apply same_pending_ok, H|].
    destruct (is_tool (env_tool env) tool_polygon
              && (0 <? List.length (polygonPoints (drawingState p)))%nat);
      [apply same_pending_ok, H | exact H].
  - unfold handleMouseUp.
    destruct (isPanning (viewState p)); [apply same_pending_ok, H|].
    destruct (isDrawing (drawingState p) && is_tool (env_tool env) tool_rectangle);
      [|exact H].
    destruct (coords env p e) as [x y].
    destruct (drag_rectangle (startX (drawingState p)) (startY (drawingState p))
                             x y) as [polygon|] eqn:E.
    + apply offer_shape_ok. apply drag_rectangle_Some in E.
      destruct E as (-> & Hw & Hh). split; assumption.
    + apply same_pending_ok, H.
  - unfold handleCanvasClick.
    destruct (isPanning (viewState p)); [exact H|].
    destruct (coords env p e) as [x y].
    destruct (is_tool (env_tool env) tool_polygon); [|exact H].
    destruct (3 <=? List.length (polygonPoints (drawingState p)))%nat eqn:E3;
      [|apply same_pending_ok, H].
    match goal with
    | |- context [if ?c then offer_shape _ _ else _] => destruct c
    end.
    + apply offer_shape_ok. cbn [shape_acceptable]. apply Nat.leb_le. exact E3.
    + apply same_pending_ok, H.
  - unfold handleDoubleClick.
    destruct (is_tool (env_tool env) tool_polygon); cbn [andb]; [|exact H].
    destruct (3 <=? List.length (polygonPoints (drawingState p)))%nat eqn:E3;
      [|exact H].
    apply offer_shape_ok. cbn [shape_acceptable]. apply Nat.leb_le. exact E3.
  - apply same_pending_ok, H.
  - apply same_pending_ok, H.
  - apply same_pending_ok, H.
  - apply same_pending_ok, H.
  - apply same_pending_ok, H.
  - apply closed_ok.
  - apply closed_ok.
  - apply closed_ok.
  - apply same_pending_ok, H.
  - apply same_pending_ok, H.
Qed.

Lemma handle_all_ok (evs : list (Env * PanelEvent)) (p : Panel) :
  panel_ok p -> panel_ok (handle_all Math_sqrt evs p).
Proof.
  revert p. induction evs as [|ev evs IH]; intros p H; simpl.
  - exact H.
  - apply IH, handle_ok, H.
Qed.

End PanelInvariant.

(** X21.  Whatever sequence of pointer, key and button events the
    canvas panel handles from its initial state, a shape waiting to be
    assigned to an actor is a rectangle larger than 10 by 10 or a polygon of
    at least three points, and the assignment dialog is open exactly when
    such a shape is waiting. *)
Theorem pending_shape_always_acceptable (Math_sqrt : Q -> Q)
        (evs : list (Canvas.Env * Canvas.PanelEvent)) :
  let p := Canvas.handle_all Math_sqrt evs Canvas.initialPanel in
  (forall polygon,
      Canvas.pendingShape p = Some polygon -> Canvas.shape_acceptable polygon)
  /\ (Canvas.showActorAssignModal p = true <-> Canvas.pendingShape p <> None).
Proof.
  cbv zeta. apply (handle_all_ok Math_sqrt evs Canvas.initialPanel).
  split; simpl.
  - discriminate.
  - split; [discriminate | intro H; now contradiction H].
Qed.

(** Three clicks and a double click with the polygon tool offer a triangle. *)
Example triangle_by_double_click :
  let env := Canvas.mkEnv tool_polygon 1920 1080
                          (Some (Canvas.mkDOMRect 0 0 1920 1080)) in
  let click x y := (env, Canvas.Click (Canvas.mkMouseEvent 0 x y)) in
  Canvas.pendingShape
    (Canvas.handle_all (fun q => q)
       [click 100 100; click 300 100; click 200 300; (env, Canvas.DoubleClick)]
       Canvas.initialPanel)
  = Some (Arbitrary [((100 - 0 - 1920 / 2 - 0) / 1 + 1920 / 2,
                      (100 - 0 - 1080 / 2 - 0) / 1 + 1080 / 2);
                     ((300 - 0 - 1920 / 2 - 0) / 1 + 1920 / 2,
                      (100 - 0 - 1080 / 2 - 0) / 1 + 1080 / 2);
                     ((200 - 0 - 1920 / 2 - 0) / 1 + 1920 / 2,
                      (300 - 0 - 1080 / 2 - 0) / 1 + 1080 / 2)]).
Proof. reflexivity. Qed.

Section RayCastingOutside.
Import Canvas.

Lemma edge_test_no_crossing (x y xi yi xj yj : Q) :
  crossing y yi yj = false -> edge_test x y xi yi xj yj = Some false.
Proof. intro H. unfold edge_test. rewrite H. reflexivity. Qed.

(** A loop whose edge tests all fail leaves [inside] as it is. *)
Lemma ray_loop_untouched (points : list (Q * Q)) (x y : Q) :
  (forall p q, In p points -> In q points ->
               edge_test x y (fst p) (snd p) (fst q) (snd q) = Some false) ->
  forall remaining i j inside,
    (i + remaining <= List.length points)%nat ->
    (j < List.length points)%nat ->
    ray_loop points x y remaining i j inside = Some inside.
Proof.
  intros Hall. induction remaining as [|r IH]; intros i j inside Hi Hj; simpl.
  - reflexivity.
  - assert (Hin_i : In (nth i points (0, 0)) points) by (apply nth_In; lia).
    assert (Hin_j : In (nth j points (0, 0)) points) by (apply nth_In; lia).
    pose proof (Hall _ _ Hin_i Hin_j) as E.
    destruct (nth i points (0, 0)) as [xi yi].
    destruct (nth j points (0, 0)) as [xj yj].
    simpl in E. rewrite E. apply IH; lia.
Qed.

End RayCastingOutside.

(** X22.  A point above or below all the vertices of a polygon is never
    reported inside it: when every vertex has a greater y than the point, or
    when none has, no edge is taken to cross the ray, whatever the x
    coordinates are. *)
Theorem isPointInPolygon_outside_vertical_extent
        (points : list (Q * Q)) (x y : Q) :
  (forall p, In p points -> y < snd p)
  \/ (forall p, In p points -> snd p <= y) ->
  Canvas.isPointInPolygon x y (Arbitrary points) = Some false.
Proof.
  intro H. unfold Canvas.isPointInPolygon.
  destruct points as [|p0 ps] eqn:Ep; [reflexivity|]. rewrite <- Ep in *.
  assert (Hlen : (0 < List.length points)%nat) by (rewrite Ep; simpl; lia).
  destruct H as [Hbelow | Habove].
  - apply ray_loop_untouched; try lia.
    intros p q Hp Hq. apply edge_test_no_crossing. unfold Canvas.crossing.
    rewrite (proj2 (Qlt_bool_iff _ _) (Hbelow p Hp)).
    rewrite (proj2 (Qlt_bool_iff _ _) (Hbelow q Hq)). reflexivity.
  - apply ray_loop_untouched; try lia.
    intros p q Hp Hq. apply edge_test_no_crossing. unfold Canvas.crossing.
    rewrite (proj2 (Qlt_bool_false_iff _ _) (Habove p Hp)).
    rewrite (proj2 (Qlt_bool_false_iff _ _) (Habove q Hq)). reflexivity.
Qed.

(** The point (5, 10) on the upper side of the square, and (5, -1). *)
Lemma isPointInPolygon_outside_vertical_extent_witness :
  Canvas.isPointInPolygon 5 10 square = Some false
  /\ Canvas.isPointInPolygon 5 (-1) square = Some false.
Proof.
  split.
  - apply (isPointInPolygon_outside_vertical_extent
             [(0, 0); (10, 0); (10, 10); (0, 10)] 5 10).
    right. intros p [<- | [<- | [<- | [<- | []]]]]; cbn [snd]; lra.
  - apply (isPointInPolygon_outside_vertical_extent
             [(0, 0); (10, 0); (10, 10); (0, 10)] 5 (-1)).
    left. intros p [<- | [<- | [<- | [<- | []]]]]; cbn [snd]; lra.
Defined.

Section Selection.
Import Canvas.

Lemma find_skip {A} (p : A -> bool) (l l' : list A) :
  (forall x, In x l -> p x = false) -> find p (l ++ l') = find p l'.
Proof.
  induction l as [|x l IH]; intro H; simpl.
  - reflexivity.
  - rewrite (H x (or_introl eq_refl)). apply IH.
    intros z Hz. apply H. now right.
Qed.

Lemma find_nothing {A} (p : A -> bool) (l : list A) :
  (forall x, In x l -> p x = false) -> find p l = None.
Proof.
  intro H. rewrite <- (app_nil_r l). rewrite find_skip by exact H. reflexivity.
Qed.

(** Searching the reversed array finds the last match of the array. *)
Lemma find_rev_last {A} (p : A -> bool) (l1 l2 : list A) (a : A) :
  p a = true -> (forall x, In x l2 -> p x = false) ->
  find p (rev (l1 ++ a :: l2)) = Some a.
Proof.
  intros Ha H2. rewrite rev_app_distr. simpl. rewrite <- app_assoc.
  rewrite find_skip by (intros x Hx; apply H2, in_rev, Hx).
  simpl. now rewrite Ha.
Qed.

End Selection.

(** X23.  A click with the select tool selects the last actor of the
    list (the one painted on top) that has a shape containing the point;
    when no actor is hit, the last background containing the point; when
    nothing is hit, nothing.  An actor always wins over a background, and
    afterwards never both an actor and a background are selected. *)
Theorem click_select_topmost (x y : Q) (st : Store.ProjectState) :
  let ui' := Store.ui (Canvas.click_select x y st) in
  (forall l1 a l2,
      Store.actors st = l1 ++ a :: l2 ->
      Canvas.actor_hit x y a = true ->
      (forall b, In b l2 -> Canvas.actor_hit x y b = false) ->
      selectedActorId ui' = Some (id a) /\ selectedBackgroundId ui' = None)
  /\ ((forall a, In a (Store.actors st) -> Canvas.actor_hit x y a = false) ->
      (forall l1 bg l2,
          Store.backgrounds st = l1 ++ bg :: l2 ->
          Canvas.background_hit x y bg = true ->
          (forall b, In b l2 -> Canvas.background_hit x y b = false) ->
          selectedActorId ui' = None
          /\ selectedBackgroundId ui' = Some (bg_id bg))
      /\ ((forall bg, In bg (Store.backgrounds st) ->
                      Canvas.background_hit x y bg = false) ->
          selectedActorId ui' = None /\ selectedBackgroundId ui' = None))
  /\ (selectedActorId ui' = None \/ selectedBackgroundId ui' = None).
Proof.
  cbv zeta. unfold Canvas.click_select. split; [|split].
  - intros l1 a l2 E Ha Hl2. rewrite E.
    rewrite (find_rev_last _ l1 l2 a Ha Hl2). split; reflexivity.
  - intro Hnone.
    rewrite (find_nothing (Canvas.actor_hit x y) (rev (Store.actors st)))
      by (intros a Ha; apply Hnone, in_rev, Ha).
    split.
    + intros l1 bg l2 E Hbg Hl2. rewrite E.
      rewrite (find_rev_last _ l1 l2 bg Hbg Hl2). split; reflexivity.
    + intro Hnobg.
      rewrite (find_nothing (Canvas.background_hit x y)
                            (rev (Store.backgrounds st)))
        by (intros b Hb; apply Hnobg, in_rev, Hb).
      split; reflexivity.
  - destruct (find (Canvas.actor_hit x y) (rev (Store.actors st)));
      [right; reflexivity|].
    destruct (find (Canvas.background_hit x y) (rev (Store.backgrounds st)));
      left; reflexivity.
Qed.

Section Bounds.

Lemma fold_min_le (l : list Q) (a : Q) :
  fold_left Math_min l a <= a
  /\ (forall x, In x l -> fold_left Math_min l a <= x)
  /\ In (fold_left Math_min l a) (a :: l).
Proof.
  revert a. induction l as [|y l IH]; intro a; simpl.
  - split; [lra|]. split; [intros x [] | now left].
  - destruct (IH (Math_min a y)) as (H1 & H2 & H3).
    destruct (Math_min_spec a y) as (Ha & Hy & Hor).
    split; [lra|]. split.
    + intros x [<- | Hx]; [lra | apply H2, Hx].
    + destruct H3 as [H3 | H3]; [|auto].
      rewrite <- H3. destruct Hor as [-> | ->]; auto.
Qed.

Lemma fold_max_In (l : list Q) (a : Q) : In (fold_left Math_max l a) (a :: l).
Proof.
  revert a. induction l as [|y l IH]; intro a; simpl.
  - now left.
  - destruct (IH (Math_max a y)) as [H | H]; [|auto].
    rewrite <- H. destruct (Math_max_spec a y) as (_ & _ & [-> | ->]); auto.
Qed.

End Bounds.

(** X24.  The label anchor that [getPolygonBounds] gives for a
    rectangle of non-negative size lies inside the rectangle; for a polygon
    with points it is the centre of the bounding box of the points: the
    midpoint between the least and greatest x, and between the least and
    greatest y, of the vertices. *)
Theorem getPolygonBounds_anchor :
  (forall rx ry w h,
      0 <= w -> 0 <= h ->
      Canvas.isPointInPolygon
        (fst (Canvas.getPolygonBounds (Rectangle rx ry w h)))
        (snd (Canvas.getPolygonBounds (Rectangle rx ry w h)))
        (Rectangle rx ry w h)
      = Some true)
  /\ (forall p ps,
         exists x0 x1 y0 y1,
           (In x0 (map fst (p :: ps)) /\ In x1 (map fst (p :: ps))
            /\ In y0 (map snd (p :: ps)) /\ In y1 (map snd (p :: ps)))
           /\ (forall q, In q (p :: ps) ->
                         x0 <= fst q /\ fst q <= x1
                         /\ y0 <= snd q /\ snd q <= y1)
           /\ Canvas.getPolygonBounds (Arbitrary (p :: ps))
              = ((x0 + x1) / 2, (y0 + y1) / 2)).
Proof.
  split.
  - intros rx ry w h Hw Hh. simpl. f_equal.
    rewrite !andb_true_iff, !Qle_bool_iff.
    assert (E : forall a b, 0 <= b -> a <= a + b / 2 /\ a + b / 2 <= a + b).
    { intros a b Hb.
      assert (Hb2 : 0 <= b / 2) by (apply Qle_shift_div_l; lra).
      assert (Hb3 : b / 2 <= b) by (apply Qle_shift_div_r; lra).
      split; lra. }
    destruct (E rx w Hw), (E ry h Hh). tauto.
  - intros p ps.
    exists (fold_left Math_min (map fst ps) (fst p)),
           (fold_left Math_max (map fst ps) (fst p)),
           (fold_left Math_min (map snd ps) (snd p)),
           (fold_left Math_max (map snd ps) (snd p)).
    destruct (fold_min_le (map fst ps) (fst p)) as (Hx1 & Hx2 & Hx3).
    destruct (fold_min_le (map snd ps) (snd p)) as (Hy1 & Hy2 & Hy3).
    destruct (fold_max_ge (map fst ps) (fst p)) as (Hx4 & Hx5).
    destruct (fold_max_ge (map snd ps) (snd p)) as (Hy4 & Hy5).
    pose proof (fold_max_In (map fst ps) (fst p)) as Hx6.
    pose proof (fold_max_In (map snd ps) (snd p)) as Hy6.
    split; [simpl; tauto|]. split; [|reflexivity].
    intros q [<- | Hq]; [repeat split; assumption|].
    repeat split.
    + apply Hx2, in_map, Hq.
    + apply Hx5, in_map, Hq.
    + apply Hy2, in_map, Hq.
    + apply Hy5, in_map, Hq.
Qed.

Example empty_polygon_anchor :
  Canvas.getPolygonBounds (Arbitrary []) = (0, 0)
  /\ Canvas.isPointInPolygon 0 0 (Arbitrary []) = Some false.
Proof. split; reflexivity. Qed.

(* ------------------------------------------------------------------------ *)
(** ** Migration: when it throws, and what it drops *)

Section MigrationErrors.
Import Migration.
Local Open Scope string_scope.

Lemma get_succeeds (v : json) (key : string) :
  succeeds (get v key) <-> readable v = true.
Proof. destruct v; simpl; intuition discriminate. Qed.

Lemma migrateActor_succeeds (actor : json) :
  succeeds (migrateActor actor) <-> readable actor = true.
Proof. destruct actor; simpl; intuition discriminate. Qed.

Lemma traverse_succeeds (items : list json) :
  succeeds (traverse migrateActor items) <-> forallb readable items = true.
Proof.
  induction items as [|a items IH]; simpl.
  - tauto.
  - rewrite andb_true_iff, <- IH, <- migrateActor_succeeds.
    destruct (migrateActor a); simpl; [|tauto].
    destruct (traverse migrateActor items); simpl; tauto.
Qed.

Lemma array_map_succeeds (v : json) :
  succeeds (array_map migrateActor (or_else v (JArr [])))
  <-> actors_migratable v = true.
Proof.
  unfold actors_migratable, array_map.
  destruct (or_else v (JArr [])) as [ | | | | |items| ]; simpl;
    try (split; [contradiction | discriminate]).
  rewrite <- traverse_succeeds.
  destruct (traverse migrateActor items); simpl; tauto.
Qed.

End MigrationErrors.

(** X25.  [migrateGrisFile] throws in exactly two situations: the
    payload is [null] or [undefined]; or the payload is taken for a legacy
    file (version falsy or 1) and its actors field is neither falsy nor an
    array, or is an array with a [null] entry.  Every other payload is
    migrated, whatever else is missing or ill-typed in it. *)
Theorem migrateGrisFile_throws_exactly (data : Migration.json) :
  Migration.succeeds (Migration.migrateGrisFile data)
  <-> Migration.readable data = true
      /\ (forall version actors,
             Migration.get data "version" = Migration.Ok version ->
             Migration.get data "actors" = Migration.Ok actors ->
             Migration.is_legacy version = true ->
             Migration.actors_migratable actors = true).
Proof.
  unfold Migration.migrateGrisFile.
  destruct (Migration.readable data) eqn:Er.
  - assert (Hget : forall key, exists v, Migration.get data key = Migration.Ok v).
    { intro key. pose proof (proj2 (get_succeeds data key) Er) as H.
      destruct (Migration.get data key); [eauto | contradiction]. }
    destruct (Hget "version"%string) as [version Ev].
    destruct (Hget "project"%string) as [project Ep].
    destruct (Hget "backgrounds"%string) as [bgs Eb].
    destruct (Hget "actors"%string) as [actors Ea].
    rewrite Ev. cbn [Migration.bind]. fold (Migration.is_legacy version).
    destruct (Migration.is_legacy version) eqn:El.
    + rewrite Ep, Eb, Ea. cbn [Migration.bind].
      pose proof (array_map_succeeds actors) as Hmap.
      destruct (Migration.array_map Migration.migrateActor
                  (Migration.or_else actors (Migration.JArr []))) as [new|msg];
        simpl in *.
      * split; [|tauto]. intros _. split; [reflexivity|].
        intros v a Hv Ha _. inversion Ha; subst. tauto.
      * split; [contradiction|]. intros [_ H].
        apply Hmap. apply (H version actors); [reflexivity | reflexivity | exact El].
    + simpl. split; [|tauto]. intros _. split; [reflexivity|].
      intros v a Hv _ Hl. inversion Hv; subst. congruence.
  - split.
    + intro H. exfalso.
      assert (E : Migration.succeeds (Migration.get data "version")).
      { destruct (Migration.get data "version"); [exact I | exact H]. }
      apply get_succeeds in E. congruence.
    + intros [H _]. discriminate.
Qed.

Section MigrationReads.
Import Migration.
Local Open Scope string_scope.

Lemma migrateActor_same (a a' : json) :
  same_legacy_actor a a' -> migrateActor a = migrateActor a'.
Proof.
  unfold same_legacy_actor, legacy_actor_keys. intro H.
  inversion H as [|k1 l1 E1 H1]; subst.
  inversion H1 as [|k2 l2 E2 H2]; subst.
  inversion H2 as [|k3 l3 E3 H3]; subst.
  inversion H3 as [|k4 l4 E4 H4]; subst.
  inversion H4 as [|k5 l5 E5 _]; subst.
  unfold migrateActor. rewrite E1, E2, E3, E4, E5. reflexivity.
Qed.

Lemma traverse_same (items items' : list json) :
  Forall2 same_legacy_actor items items' ->
  traverse migrateActor items = traverse migrateActor items'.
Proof.
  induction 1 as [|a a' items items' Ha _ IH]; cbn [traverse].
  - reflexivity.
  - rewrite (migrateActor_same a a' Ha), IH. reflexivity.
Qed.

Lemma migrateActor_shapes (a : json) :
  readable a = true ->
  exists new, migrateActor a = Ok new /\ shapes_from_shape a new.
Proof.
  intro Hr. unfold shapes_from_shape, field.
  destruct a; try discriminate; cbn [migrateActor get bind];
    eexists; (split; [reflexivity|]); eexists;
    (split; [reflexivity|]); (split; [reflexivity|]); reflexivity.
Qed.

Lemma traverse_shapes (items : list json) :
  forallb readable items = true ->
  exists news,
    traverse migrateActor items = Ok news
    /\ Forall2 shapes_from_shape items news.
Proof.
  induction items as [|a items IH]; cbn [traverse forallb]; intro H.
  - exists []. split; [reflexivity | constructor].
  - apply andb_true_iff in H. destruct H as [Ha Hitems].
    destruct (migrateActor_shapes a Ha) as (new & Enew & Hnew).
    destruct (IH Hitems) as (news & Enews & Hnews).
    exists (new :: news). rewrite Enew, Enews. split; [reflexivity|].
    constructor; assumption.
Qed.
End MigrationReads.

(** X26.  In the legacy branch the migration of the actors reads the
    properties id, label, shape, keyframes and interpolation of each actor
    and nothing else: two legacy payloads that agree on version, project
    and backgrounds, and whose actors agree one by one on these five
    properties, have the same migration, thrown errors included.  When no
    actor is [null], every migrated actor has exactly the five properties of
    the current format, and its [shapes] is [[shape]] for a truthy legacy
    [shape] and [[]] otherwise: a [shapes] array that a legacy actor already
    carried is dropped. *)
Theorem migrateGrisFile_ignores_existing_shapes
        (fields fields' : list (string * Migration.json))
        (items items' : list Migration.json) :
  Migration.is_legacy (Migration.lookup "version" fields) = true ->
  Migration.lookup "actors" fields = Migration.JArr items ->
  Migration.lookup "version" fields' = Migration.lookup "version" fields ->
  Migration.lookup "project" fields' = Migration.lookup "project" fields ->
  Migration.lookup "backgrounds" fields'
  = Migration.lookup "backgrounds" fields ->
  Migration.lookup "actors" fields' = Migration.JArr items' ->
  Forall2 Migration.same_legacy_actor items items' ->
  Migration.migrateGrisFile (Migration.JObj fields')
  = Migration.migrateGrisFile (Migration.JObj fields)
  /\ (forallb Migration.readable items = true ->
      exists new_fields news,
        Migration.migrateGrisFile (Migration.JObj fields)
        = Migration.Ok (Migration.JObj new_fields)
        /\ Migration.lookup "actors" new_fields = Migration.JArr news
        /\ Forall2 Migration.shapes_from_shape items news).
Proof.
  intros Hv Ha Hv' Hp' Hb' Ha' Hsame.
  unfold Migration.migrateGrisFile.
  cbn [Migration.get Migration.bind].
  rewrite Hv', Hp', Hb', Ha', Ha.
  fold (Migration.is_legacy (Migration.lookup "version" fields)).
  rewrite Hv.
  cbn [Migration.or_else Migration.truthy Migration.array_map].
  rewrite (traverse_same items items' Hsame). split; [reflexivity|].
  intro Hr. destruct (traverse_shapes items' ) as (news & Enews & Hnews).
  - clear - Hr Hsame. induction Hsame as [|a a' l l' Ha _ IH]; [reflexivity|].
    cbn [forallb] in *. apply andb_true_iff in Hr. destruct Hr as [Hra Hrl].
    rewrite (IH Hrl), andb_true_r.
    apply get_succeeds with (key := "id"%string).
    apply (get_succeeds a "id"%string) in Hra.
    unfold Migration.same_legacy_actor, Migration.legacy_actor_keys in Ha.
    inversion Ha as [|k l0 E _]; subst. rewrite <- E. exact Hra.
  - rewrite Enews. cbn [Migration.bind]. do 2 eexists.
    split; [reflexivity|]. split; [reflexivity|].
    destruct (traverse_shapes items Hr) as (news0 & Enews0 & Hnews0).
    rewrite (traverse_same items items' Hsame), Enews in Enews0.
    injection Enews0 as <-. exact Hnews0.
Qed.

(** Two actors that carry a [shapes] array, the second also a legacy
    [shape]; the payload is compared with the one without the arrays. *)
Lemma migrateGrisFile_ignores_existing_shapes_witness :
  Migration.migrateGrisFile
    (Migration.JObj
       [("version", Migration.JNum 1);
        ("actors",
         Migration.JArr
           [Migration.JObj [("id", Migration.JStr "a1")];
            Migration.JObj [("id", Migration.JStr "a2");
                            ("shape", Migration.JObj [])]])])%string
  = Migration.migrateGrisFile
      (Migration.JObj
         [("version", Migration.JNum 1);
          ("actors",
           Migration.JArr
             [Migration.JObj
                [("id", Migration.JStr "a1");
                 ("shapes", Migration.JArr [Migration.JObj []])];
              Migration.JObj
                [("shapes", Migration.JArr [Migration.JNull]);
                 ("id", Migration.JStr "a2");
                 ("shape", Migration.JObj [])]])])%string.
Proof.
  refine (proj1 (migrateGrisFile_ignores_existing_shapes
                   [("version", Migration.JNum 1);
                    ("actors",
                     Migration.JArr
                       [Migration.JObj
                          [("id", Migration.JStr "a1");
                           ("shapes", Migration.JArr [Migration.JObj []])];
                        Migration.JObj
                          [("shapes", Migration.JArr [Migration.JNull]);
                           ("id", Migration.JStr "a2");
                           ("shape", Migration.JObj [])]])]%string
                   [("version", Migration.JNum 1);
                    ("actors",
                     Migration.JArr
                       [Migration.JObj [("id", Migration.JStr "a1")];
                        Migration.JObj [("id", Migration.JStr "a2");
                                        ("shape", Migration.JObj [])]])]%string
                   _ _ eq_refl eq_refl eq_refl eq_refl eq_refl eq_refl _)).
  repeat constructor.
Defined.

(* ------------------------------------------------------------------------ *)
(** ** Colour interpolation *)

Section Colours.
Import Store.






End Colours.


Example interpolateColor_parses :
  Store.parseHex "#FFcc00" = Store.mkRGB 255 204 0
  /\ Store.parseHex "333333" = Store.mkRGB 51 51 51
  /\ Store.parseHex "#ffcc0" = Store.black
  /\ Store.parseHex "#ggcc00" = Store.black
  /\ Store.mix 51 255 (1 # 2) = inject_Z 153.
Proof. repeat split; reflexivity. Qed.

(* ------------------------------------------------------------------------ *)
(** ** Canvas panel: the zoom factor *)

Section ViewZoom.
Import Canvas.
Variable Math_sqrt : Q -> Q.

Lemma handle_zoom_ok (p : Panel) (ev : Env * PanelEvent) :
  is_fit (snd ev) = false -> zoom_ok p -> zoom_ok (handle Math_sqrt p ev).
Proof.
  unfold zoom_ok. intros Hfit H.
  destruct ev as [env [e|e|e|e| |deltaY e| | | | | | | | | ]];
    unfold handle; cbn [fst snd] in *; try discriminate; try exact H.
  - unfold handleMouseDown.
    destruct (Z.eqb (button e) 1 || (ctrlPressed p && Z.eqb (button e) 0));
      [exact H|].
    destruct (negb (Z.eqb (button e) 0)); [exact H|].
    destruct (coords env p e) as [x y].
    destruct (is_tool (env_tool env) tool_rectangle); exact H.
  - unfold handleMouseMove.
    destruct (isPanning (viewState p)); [exact H|].
    destruct (coords env p e) as [x y].
    destruct (isDrawing (drawingState p) && is_tool (env_tool env) tool_rectangle);
      [exact H|].
    destruct (is_tool (env_tool env) tool_polygon
              && (0 <? List.length (polygonPoints (drawingState p)))%nat);
      exact H.
  - unfold handleMouseUp.
    destruct (isPanning (viewState p)); [exact H|].
    destruct (isDrawing (drawingState p) && is_tool (env_tool env) tool_rectangle);
      [|exact H].
    destruct (coords env p e) as [x y].
    destruct (drag_rectangle (startX (drawingState p)) (startY (drawingState p))
                             x y); exact H.
  - unfold handleCanvasClick.
    destruct (isPanning (viewState p)); [exact H|].
    destruct (coords env p e) as [x y].
    destruct (is_tool (env_tool env) tool_polygon); [|exact H].
    match goal with
    | |- context [if ?c then offer_shape _ _ else _] => destruct c
    end; exact H.
  - unfold handleDoubleClick.
    destruct (is_tool (env_tool env) tool_polygon
              && (3 <=? List.length (polygonPoints (drawingState p)))%nat);
      exact H.
  - cbn [with_view viewState]. unfold handleWheel.
    destruct (env_container env); [|exact H].
    cbn [v_zoom]. apply min_max_range. discriminate.
  - cbn [with_view viewState handleZoomIn v_zoom].
    destruct H as [Hlo Hhi].
    destruct (Math_min_spec (v_zoom (viewState p) * (125 # 100)) 5)
      as (_ & H5 & [E | E]); rewrite E in *; split; lra.
  - cbn [with_view viewState handleZoomOut v_zoom].
    destruct H as [Hlo Hhi].
    assert (Hdiv : v_zoom (viewState p) / (125 # 100) <= 5).
    { apply Qle_shift_div_r; [reflexivity | lra]. }
    destruct (Math_max_spec (v_zoom (viewState p) / (125 # 100)) (1 # 10))
      as (_ & H1 & [E | E]); rewrite E in *; split; lra.
  - cbn [with_view viewState initialView v_zoom]. split; discriminate.
Qed.

Lemma handle_all_zoom_ok (evs : list (Env * PanelEvent)) (p : Panel) :
  forallb (fun ev => negb (is_fit (snd ev))) evs = true ->
  zoom_ok p -> zoom_ok (handle_all Math_sqrt evs p).
Proof.
  revert p. induction evs as [|ev evs IH]; intros p Hfit H; simpl in *.
  - exact H.
  - apply andb_true_iff in Hfit. destruct Hfit as [Hev Hevs].
    apply IH; [exact Hevs|]. apply handle_zoom_ok; [|exact H].
    apply negb_true_iff. exact Hev.
Qed.

End ViewZoom.

(** X28.  As long as "fit to view" is not used, the zoom factor of
    the canvas stays in [0.1, 5] through every sequence of events, so the
    conversion of pointer positions never divides by zero; "fit to view"
    itself never zooms in past 100%. *)
Theorem canvas_zoom_stays_in_range (Math_sqrt : Q -> Q)
        (evs : list (Canvas.Env * Canvas.PanelEvent)) :
  forallb (fun ev => negb (Canvas.is_fit (snd ev))) evs = true ->
  (1 # 10
   <= Canvas.v_zoom
        (Canvas.viewState (Canvas.handle_all Math_sqrt evs Canvas.initialPanel))
   /\ Canvas.v_zoom
        (Canvas.viewState (Canvas.handle_all Math_sqrt evs Canvas.initialPanel))
      <= 5)
  /\ (forall view canvasW canvasH rect,
         Canvas.v_zoom
           (Canvas.handleFitToView view canvasW canvasH (Some rect)) <= 1).
Proof.
  intro Hfit. split.
  - apply (handle_all_zoom_ok Math_sqrt evs Canvas.initialPanel Hfit).
    simpl. split; discriminate.
  - intros view canvasW canvasH rect. cbn [Canvas.handleFitToView Canvas.v_zoom].
    apply Math_min_spec.
Qed.

Lemma canvas_zoom_stays_in_range_witness :
  Canvas.v_zoom
    (Canvas.viewState
       (Canvas.handle_all (fun q => q)
          [(Canvas.mkEnv tool_select 1920 1080 None, Canvas.ZoomIn);
           (Canvas.mkEnv tool_select 1920 1080 None, Canvas.ZoomIn)]
          Canvas.initialPanel))
  <= 5.
Proof.
  exact (proj2 (proj1 (canvas_zoom_stays_in_range (fun q => q)
           [(Canvas.mkEnv tool_select 1920 1080 None, Canvas.ZoomIn);
            (Canvas.mkEnv tool_select 1920 1080 None, Canvas.ZoomIn)]
           eq_refl))).
Defined.

(** In a container narrower than the padding, "fit to view" sets a negative
    zoom factor. *)
Example fit_to_view_in_small_container :
  Canvas.v_zoom
    (Canvas.handleFitToView Canvas.initialView 1920 1080
                            (Some (Canvas.mkDOMRect 0 0 60 600)))
  == - (20 # 1920).
Proof. reflexivity. Qed.

(* ------------------------------------------------------------------------ *)
(** ** Timeline track: dragging a keyframe *)

Section KeyframeDrag.

Lemma find_keyframe_at (kfs : list KeyFrame) (kf : KeyFrame) :
  sorted_unique kfs -> In kf kfs ->
  find (fun k => Qeq_bool (time k) (time kf)) kfs = Some kf.
Proof.
  intros Hs Hin.
  destruct (find (fun k => Qeq_bool (time k) (time kf)) kfs) as [x|] eqn:E.
  - apply find_some in E. destruct E as [Hx Ht]. qbool.
    f_equal. exact (sorted_same_time kfs x kf Hs Hx Hin Ht).
  - pose proof (find_none _ _ E kf Hin) as H. simpl in H.
    rewrite Qeq_bool_refl in H. discriminate.
Qed.

End KeyframeDrag.

(** X29.  Dragging a keyframe of a sorted list moves it: afterwards
    the list is sorted and holds the keyframe's value at the new time, which
    is kept within [0, duration]; every other keyframe is kept, except one
    that was already at the new time, which is replaced. *)
Theorem handleKeyframeDrag_moves (st : Store.ProjectState) (i : nat)
        (a : Actor) (kf : KeyFrame) (originalTime deltaX zoom : Q) :
  nth_error (Store.actors st) i = Some a ->
  sorted_unique (keyframes a) ->
  In kf (keyframes a) ->
  ~ zoom == 0 ->
  let newTime :=
    Math_max 0 (Math_min (duration (Store.playback st))
                         (originalTime + deltaX / zoom)) in
  exists a',
    nth_error
      (Store.actors
         (ActorTrack.handleKeyframeDrag a (time kf) originalTime deltaX zoom st))
      i = Some a'
    /\ sorted_unique (keyframes a')
    /\ (forall k,
           In k (keyframes a')
           <-> k = mkKeyFrame newTime (value kf)
               \/ (In k (keyframes a) /\ ~ time k == time kf
                   /\ ~ time k == newTime))
    /\ (0 <= duration (Store.playback st) ->
        0 <= newTime /\ newTime <= duration (Store.playback st)).
Proof.
  intros Hnth Hs Hin _. cbv zeta.
  set (newTime := Math_max 0 (Math_min (duration (Store.playback st))
                                       (originalTime + deltaX / zoom))).
  unfold ActorTrack.handleKeyframeDrag. fold newTime.
  rewrite (find_keyframe_at _ _ Hs Hin).
  pose proof (removeKeyframe_nth st i a (time kf) Hnth) as H1.
  pose proof (addKeyframe_nth _ i _ (mkKeyFrame newTime (value kf)) H1) as H2.
  cbn [Store.with_keyframes id keyframes] in H2.
  eexists. split; [exact H2|]. cbn [Store.with_keyframes keyframes].
  split; [|split].
  - apply insertKeyframe_spec, sorted_unique_filter, Hs.
  - intro k. rewrite insertKeyframe_In, filter_In, negb_true_iff,
      Qeq_bool_false_iff. cbn [time]. tauto.
  - intro Hd. apply (clamp_range 0 (duration (Store.playback st))
                       (originalTime + deltaX / zoom) Hd).
Qed.

Lemma handleKeyframeDrag_moves_witness :
  nth_error (Store.actors one_actor) 0 = Some ramp
  /\ sorted_unique (keyframes ramp)
  /\ In (mkKeyFrame 0 0) (keyframes ramp)
  /\ ~ 100 == 0
  /\ exists a',
      nth_error
        (Store.actors
           (ActorTrack.handleKeyframeDrag ramp (time (mkKeyFrame 0 0)) 0 300 100
                                          one_actor)) 0
      = Some a'
      /\ sorted_unique (keyframes a').
Proof.
  split; [reflexivity|]. split; [exact ramp_sorted|].
  split; [simpl; auto|]. split; [discriminate|].
  destruct (handleKeyframeDrag_moves one_actor 0 ramp (mkKeyFrame 0 0) 0 300 100
              eq_refl ramp_sorted (or_introl eq_refl) ltac:(discriminate))
    as (a' & H1 & H2 & _).
  exists a'. split; assumption.
Defined.

(** Dragged onto the time of its neighbour, a keyframe replaces it. *)
Example drag_onto_neighbour :
  let moved :=
    ActorTrack.handleKeyframeDrag
      (mkActor "a1" "A" [] [mkKeyFrame 0 0; mkKeyFrame 10 1] linear)
      0 0 1000 100
      (Store.mkState blank_project
         [mkActor "a1" "A" [] [mkKeyFrame 0 0; mkKeyFrame 10 1] linear] []
         (mkPlaybackState 0 false 10) blank_ui None None) in
  map (fun a => List.length (keyframes a)) (Store.actors moved) = [1%nat].
Proof. reflexivity. Qed.
